(** * Geometric transforms of [Draft/PythonLibraries/transforms.py]

    A shallow embedding, over the real numbers, of the quaternion,
    axis-angle and pose-matrix helpers of [transforms.py], followed by the
    properties the specification states about them.

    Conventions of the embedding.
    - numpy arrays of fixed shape are records: a (3,1) array is a [vec3],
      a (4,1) array or a row of a 4x4 matrix is a [vec4], matrices are
      records of rows.  Quaternions are stored (x, y, z, w).
    - arithmetic is exact (type [R]); a floating-point division by zero,
      whose numpy result is nan or inf, is the fault [DivisionByZero];
      a [ValueError] of [math.acos] or [math.sqrt] is [MathDomain]; the
      [LinAlgError] of [numpy.linalg.inv] is [SingularMatrix].
    - a function that writes into an array it was handed returns the final
      contents of that array next to its result. *)

From Stdlib Require Import Reals Lra List ZArith.
Import ListNotations.
Local Open Scope R_scope.

(** ** Outcomes of partial numeric operations *)

Inductive fault : Type :=
| DivisionByZero
| MathDomain
| SingularMatrix.

Inductive outcome (A : Type) : Type :=
| Value (a : A)
| Fault (f : fault).

Arguments Value {A} a.
Arguments Fault {A} f.

Definition bind {A B : Type} (m : outcome A) (k : A -> outcome B) : outcome B :=
  match m with
  | Value a => k a
  | Fault f => Fault f
  end.

Notation "x <- m ;; k" := (bind m (fun x => k))
  (at level 61, m at next level, right associativity).

(** [a / b] as numpy evaluates it on floats: defined unless [b] is zero. *)
Definition checked_div (a b : R) : outcome R :=
  if Req_dec_T b 0 then Fault DivisionByZero else Value (a / b).

(** [math.acos]: raises outside [-1, 1]. *)
Definition checked_acos (a : R) : outcome R :=
  if Rlt_dec a (-1) then Fault MathDomain
  else if Rgt_dec a 1 then Fault MathDomain
  else Value (acos a).

(** [math.sqrt]: raises on a negative argument. *)
Definition checked_sqrt (a : R) : outcome R :=
  if Rlt_dec a 0 then Fault MathDomain else Value (sqrt a).

(** [numpy.sign]. *)
Definition np_sign (a : R) : R :=
  if Rlt_dec a 0 then -1 else if Rgt_dec a 0 then 1 else 0.

(** ** Vectors *)

Record vec3 : Type := V3 { ux : R; uy : R; uz : R }.
Record vec4 : Type := V4 { vx : R; vy : R; vz : R; vw : R }.

Definition zero3 : vec3 := V3 0 0 0.
Definition zero4 : vec4 := V4 0 0 0 0.

Definition neg3 (v : vec3) : vec3 := V3 (- ux v) (- uy v) (- uz v).

Definition scale3 (v : vec3) (k : R) : vec3 :=
  V3 (ux v * k) (uy v * k) (uz v * k).

Definition div3 (v : vec3) (k : R) : outcome vec3 :=
  a <- checked_div (ux v) k ;;
  b <- checked_div (uy v) k ;;
  c <- checked_div (uz v) k ;;
  Value (V3 a b c).

Definition div4 (v : vec4) (k : R) : outcome vec4 :=
  a <- checked_div (vx v) k ;;
  b <- checked_div (vy v) k ;;
  c <- checked_div (vz v) k ;;
  d <- checked_div (vw v) k ;;
  Value (V4 a b c d).

(** [(v**2).sum()] *)
Definition sum_sq3 (v : vec3) : R := ux v ^ 2 + uy v ^ 2 + uz v ^ 2.
Definition sum_sq4 (v : vec4) : R := vx v ^ 2 + vy v ^ 2 + vz v ^ 2 + vw v ^ 2.

(** [numpy.linalg.norm] of a vector. *)
Definition norm3 (v : vec3) : R := sqrt (sum_sq3 v).
Definition norm4 (v : vec4) : R := sqrt (sum_sq4 v).

Definition dot3 (a b : vec3) : R := ux a * ux b + uy a * uy b + uz a * uz b.
Definition dot4 (a b : vec4) : R :=
  vx a * vx b + vy a * vy b + vz a * vz b + vw a * vw b.

(** ** Quaternion transformations *)

(** [mult_quat(q2, q1)] *)
Definition mult_quat (q2 q1 : vec4) : vec4 :=
  V4 (vx q1 * vw q2 + vw q1 * vx q2 + vy q1 * vz q2 - vz q1 * vy q2)
     (vw q1 * vy q2 - vx q1 * vz q2 + vy q1 * vw q2 + vz q1 * vx q2)
     (vw q1 * vz q2 + vx q1 * vy q2 - vy q1 * vx q2 + vz q1 * vw q2)
     (vw q1 * vw q2 - vx q1 * vx q2 - vy q1 * vy q2 - vz q1 * vz q2).

(** [inv_quat(qwt)]: the copy [qwt_inv] has its first three entries
    negated and is divided by the sum of squares of [qwt]. *)
Definition inv_quat (qwt : vec4) : outcome vec4 :=
  let qwt_inv := V4 (vx qwt * -1) (vy qwt * -1) (vz qwt * -1) (vw qwt) in
  div4 qwt_inv (sum_sq4 qwt).

(** [delta_quat(q2, q1)] *)
Definition delta_quat (q2 q1 : vec4) : outcome vec4 :=
  q1_inv <- inv_quat q1 ;;
  Value (mult_quat q2 q1_inv).

(** ** Conversions between quaternions and other representations *)

(** [quat_from_rvec(rvec)] *)
Definition quat_from_rvec (rvec : vec3) : outcome vec4 :=
  let angle := norm3 rvec in
  if Rgt_dec angle 0 then
    xyz <- div3 (scale3 rvec (sin (angle / 2))) angle ;;
    Value (V4 (ux xyz) (uy xyz) (uz xyz) (cos (angle / 2)))
  else
    Value (V4 0 0 0 1).

(** The body of [rvec_from_quat] once the argument array holds [q]. *)
Definition rvec_of_buffer (q : vec4) : outcome vec3 :=
  half <- checked_acos (vw q) ;;
  let angle := 2 * half in
  s <- checked_sqrt (1 - vw q ^ 2) ;;
  if Rlt_dec s (1 / 1000) then
    Value (scale3 (V3 1 0 0) angle)
  else
    axis <- div3 (V3 (vx q) (vy q) (vz q)) s ;;
    Value (scale3 axis angle).

(** [rvec_from_quat(qwt)] with the array it was called on: [qwt /= norm]
    writes the normalised quaternion into the caller's array.  The pair is
    (final contents of [qwt], returned value). *)
Definition rvec_from_quat_run (qwt : vec4) : vec4 * outcome vec3 :=
  if Rgt_dec (vw qwt) 1 then
    match div4 qwt (norm4 qwt) with
    | Value q => (q, rvec_of_buffer q)
    | Fault f => (qwt, Fault f)
    end
  else (qwt, rvec_of_buffer qwt).

Definition rvec_from_quat (qwt : vec4) : outcome vec3 :=
  snd (rvec_from_quat_run qwt).

(** [abs(rvec).argmax()]: the first index holding the largest magnitude. *)
Definition argmax_abs (v : vec3) : nat :=
  if Rle_dec (Rabs (uy v)) (Rabs (ux v)) then
    if Rle_dec (Rabs (uz v)) (Rabs (ux v)) then 0%nat else 2%nat
  else
    if Rle_dec (Rabs (uz v)) (Rabs (uy v)) then 1%nat else 2%nat.

Definition component (v : vec3) (i : nat) : R :=
  match i with
  | O => ux v
  | S O => uy v
  | _ => uz v
  end.

(** [axis_and_angle_from_rvec(rvec)]: the axis may be undefined, the angle
    never is. *)
Definition axis_and_angle_from_rvec (rvec : vec3) : outcome vec3 * R :=
  let angle := norm3 rvec in
  let sign := np_sign (component rvec (argmax_abs rvec)) in
  let axis := div3 (scale3 rvec sign) angle in
  let angle := angle * sign in
  let angle :=
    if Rgt_dec (Rabs angle) PI then angle - np_sign angle * 2 * PI else angle in
  (axis, angle).

(** ** Axis-angle transformations *)

(** [delta_rvec(r2, r1)] *)
Definition delta_rvec (r2 r1 : vec3) : outcome vec3 :=
  q2 <- quat_from_rvec r2 ;;
  q1 <- quat_from_rvec r1 ;;
  d <- delta_quat q2 q1 ;;
  rvec_from_quat d.

(** Accumulating the rotation [delta_rvec(r2, r1)] onto [r1], as
    quaternions: [mult_quat(quat_from_rvec(delta_rvec(r2, r1)),
    quat_from_rvec(r1))]. *)
Definition accumulate_delta (r2 r1 : vec3) : outcome vec4 :=
  d <- delta_rvec r2 r1 ;;
  qd <- quat_from_rvec d ;;
  q1 <- quat_from_rvec r1 ;;
  Value (mult_quat qd q1).

Definition neg4 (q : vec4) : vec4 := V4 (- vx q) (- vy q) (- vz q) (- vw q).

(** ** Matrices *)

Record mat3 : Type := M3 { m3_0 : vec3; m3_1 : vec3; m3_2 : vec3 }.
Record mat4 : Type := M4 { m4_0 : vec4; m4_1 : vec4; m4_2 : vec4; m4_3 : vec4 }.

(** [np.eye(4)] *)
Definition eye4 : mat4 :=
  M4 (V4 1 0 0 0) (V4 0 1 0 0) (V4 0 0 1 0) (V4 0 0 0 1).

(** [M.T] *)
Definition transpose3 (M : mat3) : mat3 :=
  M3 (V3 (ux (m3_0 M)) (ux (m3_1 M)) (ux (m3_2 M)))
     (V3 (uy (m3_0 M)) (uy (m3_1 M)) (uy (m3_2 M)))
     (V3 (uz (m3_0 M)) (uz (m3_1 M)) (uz (m3_2 M))).

Definition transpose4 (M : mat4) : mat4 :=
  M4 (V4 (vx (m4_0 M)) (vx (m4_1 M)) (vx (m4_2 M)) (vx (m4_3 M)))
     (V4 (vy (m4_0 M)) (vy (m4_1 M)) (vy (m4_2 M)) (vy (m4_3 M)))
     (V4 (vz (m4_0 M)) (vz (m4_1 M)) (vz (m4_2 M)) (vz (m4_3 M)))
     (V4 (vw (m4_0 M)) (vw (m4_1 M)) (vw (m4_2 M)) (vw (m4_3 M))).

(** Matrix times column vector, [M.dot(v)]. *)
Definition mat3_vec (M : mat3) (v : vec3) : vec3 :=
  V3 (dot3 (m3_0 M) v) (dot3 (m3_1 M) v) (dot3 (m3_2 M) v).

(** Row vector times the transpose of a matrix, [v.dot(M.T)]. *)
Definition row_mat4_t (v : vec4) (M : mat4) : vec4 :=
  V4 (dot4 v (m4_0 M)) (dot4 v (m4_1 M)) (dot4 v (m4_2 M)) (dot4 v (m4_3 M)).

(** Matrix product [A.dot(B)]. *)
Definition mmul4 (A B : mat4) : mat4 :=
  let Bt := transpose4 B in
  M4 (row_mat4_t (m4_0 A) Bt) (row_mat4_t (m4_1 A) Bt)
     (row_mat4_t (m4_2 A) Bt) (row_mat4_t (m4_3 A) Bt).

Definition det2 (a b c d : R) : R := a * d - b * c.

Definition det3 (M : mat3) : R :=
  let (r0, r1, r2) := M in
  ux r0 * det2 (uy r1) (uz r1) (uy r2) (uz r2)
  - uy r0 * det2 (ux r1) (uz r1) (ux r2) (uz r2)
  + uz r0 * det2 (ux r1) (uy r1) (ux r2) (uy r2).

(** The exact inverse of an invertible 3x3 matrix (adjugate over the
    determinant). *)
Definition adjugate_over_det3 (M : mat3) : mat3 :=
  let (r0, r1, r2) := M in
  let d := det3 M in
  M3 (V3 (det2 (uy r1) (uz r1) (uy r2) (uz r2) / d)
         (- det2 (uy r0) (uz r0) (uy r2) (uz r2) / d)
         (det2 (uy r0) (uz r0) (uy r1) (uz r1) / d))
     (V3 (- det2 (ux r1) (uz r1) (ux r2) (uz r2) / d)
         (det2 (ux r0) (uz r0) (ux r2) (uz r2) / d)
         (- det2 (ux r0) (uz r0) (ux r1) (uz r1) / d))
     (V3 (det2 (ux r1) (uy r1) (ux r2) (uy r2) / d)
         (- det2 (ux r0) (uy r0) (ux r2) (uy r2) / d)
         (det2 (ux r0) (uy r0) (ux r1) (uy r1) / d)).

(** [numpy.linalg.inv] on a 3x3 matrix: [LinAlgError] when singular. *)
Definition LA_inv (M : mat3) : outcome mat3 :=
  if Req_dec_T (det3 M) 0 then Fault SingularMatrix
  else Value (adjugate_over_det3 M).

(** Minors and cofactors of a 4x4 matrix. *)
Definition drop_col (j : nat) (v : vec4) : vec3 :=
  match j with
  | 0%nat => V3 (vy v) (vz v) (vw v)
  | 1%nat => V3 (vx v) (vz v) (vw v)
  | 2%nat => V3 (vx v) (vy v) (vw v)
  | _ => V3 (vx v) (vy v) (vz v)
  end.

Definition minor (i j : nat) (M : mat4) : mat3 :=
  let (r0, r1, r2, r3) := M in
  match i with
  | 0%nat => M3 (drop_col j r1) (drop_col j r2) (drop_col j r3)
  | 1%nat => M3 (drop_col j r0) (drop_col j r2) (drop_col j r3)
  | 2%nat => M3 (drop_col j r0) (drop_col j r1) (drop_col j r3)
  | _ => M3 (drop_col j r0) (drop_col j r1) (drop_col j r2)
  end.

Definition cofactor (i j : nat) (M : mat4) : R :=
  (-1) ^ (i + j) * det3 (minor i j M).

Definition det4 (M : mat4) : R :=
  vx (m4_0 M) * cofactor 0 0 M + vy (m4_0 M) * cofactor 0 1 M
  + vz (m4_0 M) * cofactor 0 2 M + vw (m4_0 M) * cofactor 0 3 M.

(** The exact inverse of an invertible 4x4 matrix. *)
Definition adjugate_over_det4 (M : mat4) : mat4 :=
  let d := det4 M in
  let row (i : nat) :=
    V4 (cofactor 0 i M / d) (cofactor 1 i M / d)
       (cofactor 2 i M / d) (cofactor 3 i M / d) in
  M4 (row 0%nat) (row 1%nat) (row 2%nat) (row 3%nat).

(** ** Perspective transformations *)

(** [P[0:3, 0:3] = R] *)
Definition set_rotation (P : mat4) (R : mat3) : mat4 :=
  M4 (V4 (ux (m3_0 R)) (uy (m3_0 R)) (uz (m3_0 R)) (vw (m4_0 P)))
     (V4 (ux (m3_1 R)) (uy (m3_1 R)) (uz (m3_1 R)) (vw (m4_1 P)))
     (V4 (ux (m3_2 R)) (uy (m3_2 R)) (uz (m3_2 R)) (vw (m4_2 P)))
     (m4_3 P).

(** [P[0:3, 3:4] = t] *)
Definition set_translation (P : mat4) (t : vec3) : mat4 :=
  M4 (V4 (vx (m4_0 P)) (vy (m4_0 P)) (vz (m4_0 P)) (ux t))
     (V4 (vx (m4_1 P)) (vy (m4_1 P)) (vz (m4_1 P)) (uy t))
     (V4 (vx (m4_2 P)) (vy (m4_2 P)) (vz (m4_2 P)) (uz t))
     (m4_3 P).

(** [P[0:3, 0:3]] and [P[0:3, 3:4]] *)
Definition rotation_block (P : mat4) : mat3 :=
  M3 (V3 (vx (m4_0 P)) (vy (m4_0 P)) (vz (m4_0 P)))
     (V3 (vx (m4_1 P)) (vy (m4_1 P)) (vz (m4_1 P)))
     (V3 (vx (m4_2 P)) (vy (m4_2 P)) (vz (m4_2 P))).

Definition translation_block (P : mat4) : vec3 :=
  V3 (vw (m4_0 P)) (vw (m4_1 P)) (vw (m4_2 P)).

(** [P_from_R_and_t(R, t)] *)
Definition P_from_R_and_t (R : mat3) (t : vec3) : mat4 :=
  set_translation (set_rotation eye4 R) t.

(** [P_inv(P)] *)
Definition P_inv (P : mat4) : outcome mat4 :=
  R <- LA_inv (rotation_block P) ;;
  let t := neg3 (mat3_vec R (translation_block P)) in
  Value (P_from_R_and_t R t).

(** [P[3, 0:3] = 0] followed by [P[3, 3] = 1] *)
Definition set_bottom_row (P : mat4) : mat4 :=
  let P := M4 (m4_0 P) (m4_1 P) (m4_2 P) (V4 0 0 0 (vw (m4_3 P))) in
  M4 (m4_0 P) (m4_1 P) (m4_2 P)
     (V4 (vx (m4_3 P)) (vy (m4_3 P)) (vz (m4_3 P)) 1).

Section Solver.

(** What the SVD solver returns for a singular system (the least-squares
    solution of minimum norm): kept abstract. *)
Variable lstsq : mat4 -> mat4 -> mat4.

(** [cv2.solve(src1, src2, dst, cv2.DECOMP_SVD)]: [dst] with
    [src1 . dst = src2] when [src1] is invertible. *)
Definition cv_solve (src1 src2 : mat4) : mat4 :=
  if Req_dec_T (det4 src1) 0 then lstsq src1 src2
  else mmul4 (adjugate_over_det4 src1) src2.

(** [delta_P(P2, P1)] *)
Definition delta_P (P2 P1 : mat4) : mat4 :=
  let P := cv_solve (transpose4 P1) (transpose4 P2) in
  let P := transpose4 P in
  set_bottom_row P.

End Solver.

(** Two rigid poses used as examples: a unit shift along x and a quarter
    turn about z. *)
Definition pose_shift_x : mat4 :=
  M4 (V4 1 0 0 1) (V4 0 1 0 0) (V4 0 0 1 0) (V4 0 0 0 1).

Definition pose_turn_z : mat4 :=
  M4 (V4 0 (-1) 0 0) (V4 1 0 0 0) (V4 0 0 1 0) (V4 0 0 0 1).

Definition eye3 : mat3 := M3 (V3 1 0 0) (V3 0 1 0) (V3 0 0 1).

(** [numpy.rint]: nearest integer, a tie going to the even neighbour. *)
Definition rint (a : R) : Z :=
  let f := Int_part a in
  let d := a - IZR f in
  if Rlt_dec d (1 / 2) then f
  else if Rgt_dec d (1 / 2) then (f + 1)%Z
  else if Z.even f then f else (f + 1)%Z.

(** One row of [points_nrm]: the point with 1 appended. *)
Definition homogeneous (p : vec3) : vec4 := V4 (ux p) (uy p) (uz p) 1.

(** One row of [points_nrm.dot(P[0:3, :].T).dot(K.T)]. *)
Definition proj_row (P : mat4) (K : mat3) (p : vec3) : vec3 :=
  let h := homogeneous p in
  let c := V3 (dot4 h (m4_0 P)) (dot4 h (m4_1 P)) (dot4 h (m4_2 P)) in
  V3 (dot3 c (m3_0 K)) (dot3 c (m3_1 K)) (dot3 c (m3_2 K)).

(** [.astype(int)] on an integral float: the cast to a 64-bit integer; a
    value outside the 64-bit range comes out as the smallest 64-bit
    integer. *)
Definition int64_min : Z := -9223372036854775808.
Definition int64_max : Z := 9223372036854775807.

Definition astype_int (n : Z) : Z :=
  if andb (int64_min <=? n)%Z (n <=? int64_max)%Z then n else int64_min.

(** One row of the pixel array: the first two entries divided by the third,
    rounded and cast. *)
Definition pixel_of_row (r : vec3) : outcome (Z * Z) :=
  px <- checked_div (ux r) (uz r) ;;
  py <- checked_div (uy r) (uz r) ;;
  Value (astype_int (rint px), astype_int (rint py)).

Definition Rgtb (a b : R) : bool := if Rgt_dec a b then true else false.

(** [project_points(points, P, K)]: pixels and in-front flags. *)
Definition project_points (points : list vec3) (P : mat4) (K : mat3)
  : list (outcome (Z * Z)) * list bool :=
  let points_proj := map (proj_row P K) points in
  (map pixel_of_row points_proj, map (fun r => Rgtb (uz r) 0) points_proj).

(** [projection_depth(points, P)] *)
Definition projection_depth (points : list vec3) (P : mat4) : list R :=
  map (fun p => dot4 (homogeneous p) (m4_2 P)) points.

(** ** Reference values used in the statements *)

(** The identity rotation and the conjugate of a quaternion. *)
Definition quat_one : vec4 := V4 0 0 0 1.

Definition conj4 (q : vec4) : vec4 := V4 (- vx q) (- vy q) (- vz q) (vw q).

(** 3x3 matrix product [A.dot(B)]. *)
Definition mmul3 (A B : mat3) : mat3 :=
  let Bt := transpose3 B in
  M3 (mat3_vec Bt (m3_0 A)) (mat3_vec Bt (m3_1 A)) (mat3_vec Bt (m3_2 A)).

Definition add3 (a b : vec3) : vec3 :=
  V3 (ux a + ux b) (uy a + uy b) (uz a + uz b).

(** A pose whose bottom row is (0, 0, 0, 1). *)
Definition is_pose (P : mat4) : Prop := m4_3 P = V4 0 0 0 1.

(** * Properties *)

(** ** Checked arithmetic *)

Lemma checked_div_nonzero (a b : R) :
  b <> 0 -> checked_div a b = Value (a / b).
Proof.
  intros Hb. unfold checked_div.
  destruct (Req_dec_T b 0) as [E | _]; [contradiction | reflexivity].
Qed.

Lemma checked_div_zero (a : R) : checked_div a 0 = Fault DivisionByZero.
Proof.
  unfold checked_div.
  destruct (Req_dec_T 0 0) as [_ | N]; [reflexivity | now elim N].
Qed.

Lemma div3_nonzero (v : vec3) (k : R) :
  k <> 0 -> div3 v k = Value (V3 (ux v / k) (uy v / k) (uz v / k)).
Proof.
  intros Hk. unfold div3. now rewrite !checked_div_nonzero.
Qed.

Lemma div3_zero (v : vec3) : div3 v 0 = Fault DivisionByZero.
Proof. unfold div3. now rewrite checked_div_zero. Qed.

Lemma div4_nonzero (v : vec4) (k : R) :
  k <> 0 ->
  div4 v k = Value (V4 (vx v / k) (vy v / k) (vz v / k) (vw v / k)).
Proof.
  intros Hk. unfold div4. now rewrite !checked_div_nonzero.
Qed.

Lemma div4_zero (v : vec4) : div4 v 0 = Fault DivisionByZero.
Proof. unfold div4. now rewrite checked_div_zero. Qed.

(** ** Norms *)

Lemma sum_sq3_nonneg (v : vec3) : 0 <= sum_sq3 v.
Proof.
  unfold sum_sq3.
  pose proof (pow2_ge_0 (ux v)). pose proof (pow2_ge_0 (uy v)).
  pose proof (pow2_ge_0 (uz v)). lra.
Qed.

Lemma sum_sq4_nonneg (q : vec4) : 0 <= sum_sq4 q.
Proof.
  unfold sum_sq4.
  pose proof (pow2_ge_0 (vx q)). pose proof (pow2_ge_0 (vy q)).
  pose proof (pow2_ge_0 (vz q)). pose proof (pow2_ge_0 (vw q)). lra.
Qed.

Lemma pow2_zero (a : R) : a ^ 2 = 0 -> a = 0.
Proof.
  intros H. replace (a ^ 2) with (a * a) in H by ring.
  destruct (Rmult_integral _ _ H); assumption.
Qed.

Lemma sum_sq3_zero (v : vec3) : sum_sq3 v = 0 <-> v = zero3.
Proof.
  split.
  - destruct v as [a b c]. unfold sum_sq3, zero3. simpl. intros H.
    pose proof (pow2_ge_0 a). pose proof (pow2_ge_0 b).
    pose proof (pow2_ge_0 c).
    assert (a ^ 2 = 0) by lra. assert (b ^ 2 = 0) by lra.
    assert (c ^ 2 = 0) by lra.
    f_equal; now apply pow2_zero.
  - intros ->. unfold sum_sq3, zero3. simpl. ring.
Qed.

Lemma sum_sq4_zero (q : vec4) : sum_sq4 q = 0 <-> q = zero4.
Proof.
  split.
  - destruct q as [a b c d]. unfold sum_sq4, zero4. simpl. intros H.
    pose proof (pow2_ge_0 a). pose proof (pow2_ge_0 b).
    pose proof (pow2_ge_0 c). pose proof (pow2_ge_0 d).
    assert (a ^ 2 = 0) by lra. assert (b ^ 2 = 0) by lra.
    assert (c ^ 2 = 0) by lra. assert (d ^ 2 = 0) by lra.
    f_equal; now apply pow2_zero.
  - intros ->. unfold sum_sq4, zero4. simpl. ring.
Qed.

Lemma norm3_nonneg (v : vec3) : 0 <= norm3 v.
Proof. apply sqrt_pos. Qed.

Lemma norm3_zero (v : vec3) : norm3 v = 0 <-> v = zero3.
Proof.
  unfold norm3. split.
  - intros H. apply sum_sq3_zero.
    apply sqrt_eq_0; [apply sum_sq3_nonneg | exact H].
  - intros ->. replace (sum_sq3 zero3) with 0.
    + apply sqrt_0.
    + unfold sum_sq3, zero3. simpl. ring.
Qed.

Lemma norm3_pos (v : vec3) : v <> zero3 -> 0 < norm3 v.
Proof.
  intros Hv. destruct (norm3_nonneg v) as [H | H]; [exact H |].
  exfalso. apply Hv. now apply norm3_zero.
Qed.

Lemma norm3_sq (v : vec3) : norm3 v * norm3 v = sum_sq3 v.
Proof. apply sqrt_sqrt, sum_sq3_nonneg. Qed.

Lemma norm4_sq (q : vec4) : norm4 q * norm4 q = sum_sq4 q.
Proof. apply sqrt_sqrt, sum_sq4_nonneg. Qed.

(** ** Quaternion inverse *)

Lemma inv_quat_nonzero (q : vec4) :
  sum_sq4 q <> 0 ->
  inv_quat q = Value (V4 (- vx q / sum_sq4 q) (- vy q / sum_sq4 q)
                         (- vz q / sum_sq4 q) (vw q / sum_sq4 q)).
Proof.
  intros Hs. unfold inv_quat. rewrite div4_nonzero by exact Hs. simpl.
  do 2 f_equal; field; exact Hs.
Qed.

Lemma inv_quat_unit (q : vec4) :
  sum_sq4 q = 1 ->
  inv_quat q = Value (V4 (- vx q) (- vy q) (- vz q) (vw q)).
Proof.
  intros Hu. rewrite inv_quat_nonzero by lra. rewrite Hu.
  do 2 f_equal; field.
Qed.

(** C7: for a nonzero quaternion [inv_quat] is the conjugate over the squared
    norm of the original (the conjugate itself on a unit quaternion), and
    the division is by zero exactly on the zero vector. *)
Theorem inv_quat_spec (q : vec4) :
  (q <> zero4 ->
   inv_quat q = Value (V4 (- vx q / sum_sq4 q) (- vy q / sum_sq4 q)
                          (- vz q / sum_sq4 q) (vw q / sum_sq4 q)))
  /\ (sum_sq4 q = 1 ->
      inv_quat q = Value (V4 (- vx q) (- vy q) (- vz q) (vw q)))
  /\ (inv_quat q = Fault DivisionByZero <-> q = zero4).
Proof.
  split; [| split].
  - intros Hq. apply inv_quat_nonzero. intros Hs. apply Hq.
    now apply sum_sq4_zero.
  - apply inv_quat_unit.
  - split.
    + intros Hf. apply sum_sq4_zero.
      destruct (Req_dec_T (sum_sq4 q) 0) as [E | N]; [exact E |].
      rewrite (inv_quat_nonzero q N) in Hf. discriminate Hf.
    + intros ->. unfold inv_quat.
      replace (sum_sq4 zero4) with 0 by (unfold sum_sq4, zero4; simpl; ring).
      apply div4_zero.
Qed.

Lemma inv_quat_spec_witness :
  V4 0 0 0 2 <> zero4
  /\ inv_quat (V4 0 0 0 2)
     = Value (V4 (- 0 / sum_sq4 (V4 0 0 0 2)) (- 0 / sum_sq4 (V4 0 0 0 2))
                 (- 0 / sum_sq4 (V4 0 0 0 2)) (2 / sum_sq4 (V4 0 0 0 2))).
Proof.
  assert (H : V4 0 0 0 2 <> zero4).
  { unfold zero4. intros E. injection E as E. lra. }
  split; [exact H |].
  exact (proj1 (inv_quat_spec (V4 0 0 0 2)) H).
Defined.

(** ** Axis and angle of an axis-angle vector *)

Lemma np_sign_cases (a : R) :
  a <> 0 -> (0 < a /\ np_sign a = 1) \/ (a < 0 /\ np_sign a = -1).
Proof.
  intros Ha. unfold np_sign.
  destruct (Rlt_dec a 0) as [L | NL]; [right; split; [exact L | reflexivity] |].
  destruct (Rgt_dec a 0) as [G | NG]; [left; split; [exact G | reflexivity] |].
  exfalso. lra.
Qed.

Lemma np_sign_zero : np_sign 0 = 0.
Proof.
  unfold np_sign.
  destruct (Rlt_dec 0 0) as [L | _]; [lra |].
  destruct (Rgt_dec 0 0) as [G | _]; [lra | reflexivity].
Qed.

Lemma component_scale3 (v : vec3) (k : R) (i : nat) :
  component (scale3 v k) i = component v i * k.
Proof. destruct i as [| [| i]]; reflexivity. Qed.

Lemma argmax_abs_max (v : vec3) (i : nat) :
  Rabs (component v i) <= Rabs (component v (argmax_abs v)).
Proof.
  unfold argmax_abs.
  destruct (Rle_dec (Rabs (uy v)) (Rabs (ux v))) as [H1 | H1];
    [destruct (Rle_dec (Rabs (uz v)) (Rabs (ux v))) as [H2 | H2]
    | destruct (Rle_dec (Rabs (uz v)) (Rabs (uy v))) as [H2 | H2]];
    destruct i as [| [| i]]; simpl; lra.
Qed.

Lemma dominant_nonzero (v : vec3) :
  v <> zero3 -> component v (argmax_abs v) <> 0.
Proof.
  intros Hv Hz. apply Hv.
  pose proof (argmax_abs_max v 0) as H0.
  pose proof (argmax_abs_max v 1) as H1.
  pose proof (argmax_abs_max v 2) as H2.
  rewrite Hz, Rabs_R0 in H0, H1, H2. simpl in H0, H1, H2.
  pose proof (Rabs_pos (ux v)). pose proof (Rabs_pos (uy v)).
  pose proof (Rabs_pos (uz v)).
  destruct v as [a b c]. simpl in *. unfold zero3.
  destruct (Req_dec_T a 0) as [-> | Na]; [| apply Rabs_pos_lt in Na; lra].
  destruct (Req_dec_T b 0) as [-> | Nb]; [| apply Rabs_pos_lt in Nb; lra].
  destruct (Req_dec_T c 0) as [-> | Nc]; [| apply Rabs_pos_lt in Nc; lra].
  reflexivity.
Qed.

Lemma sum_sq3_scale3 (v : vec3) (k : R) :
  sum_sq3 (scale3 v k) = sum_sq3 v * k ^ 2.
Proof. unfold sum_sq3, scale3. simpl. ring. Qed.

Lemma axis_of_nonzero (r : vec3) :
  r <> zero3 ->
  fst (axis_and_angle_from_rvec r)
  = Value (scale3 r (np_sign (component r (argmax_abs r)) / norm3 r)).
Proof.
  intros Hr. pose proof (norm3_pos r Hr) as Hn.
  unfold axis_and_angle_from_rvec. simpl.
  rewrite div3_nonzero by lra. unfold scale3. simpl.
  do 2 f_equal; field; lra.
Qed.

Lemma angle_of_rvec (r : vec3) :
  snd (axis_and_angle_from_rvec r)
  = let a := norm3 r * np_sign (component r (argmax_abs r)) in
    if Rgt_dec (Rabs a) PI then a - np_sign a * 2 * PI else a.
Proof. reflexivity. Qed.

(** C9: [axis_and_angle_from_rvec] divides by the norm without a guard, so
    the axis is undefined exactly on the zero vector (where the sign of the
    dominant component is 0 and the quotient is 0/0) and defined on every
    other input, while [quat_from_rvec] takes its zero branch there and is
    defined on every input. *)
Theorem axis_and_angle_unguarded (r : vec3) :
  (fst (axis_and_angle_from_rvec r) = Fault DivisionByZero <-> r = zero3)
  /\ (r <> zero3 -> exists axis, fst (axis_and_angle_from_rvec r) = Value axis)
  /\ np_sign (component zero3 (argmax_abs zero3)) = 0
  /\ norm3 zero3 = 0
  /\ quat_from_rvec zero3 = Value (V4 0 0 0 1)
  /\ (exists q, quat_from_rvec r = Value q).
Proof.
  assert (Hz : norm3 zero3 = 0) by now apply norm3_zero.
  repeat split.
  - intros Hf. destruct (Req_dec_T (norm3 r) 0) as [E | N].
    + now apply norm3_zero.
    + assert (Hr : r <> zero3) by (intros Hr; apply N; now apply norm3_zero).
      rewrite (axis_of_nonzero r Hr) in Hf. discriminate Hf.
  - intros ->. unfold axis_and_angle_from_rvec. simpl. rewrite Hz.
    apply div3_zero.
  - intros Hr. eexists. now apply axis_of_nonzero.
  - unfold argmax_abs, zero3. simpl.
    destruct (Rle_dec (Rabs 0) (Rabs 0)) as [_ | N]; [| elim N; lra].
    simpl. apply np_sign_zero.
  - exact Hz.
  - unfold quat_from_rvec. rewrite Hz.
    destruct (Rgt_dec 0 0) as [G | _]; [lra | reflexivity].
  - unfold quat_from_rvec.
    destruct (Rgt_dec (norm3 r) 0) as [G | _].
    + rewrite div3_nonzero by lra. simpl. eexists. reflexivity.
    + eexists. reflexivity.
Qed.

Lemma axis_and_angle_unguarded_witness :
  exists axis, fst (axis_and_angle_from_rvec (V3 1 0 0)) = Value axis.
Proof.
  apply (proj1 (proj2 (axis_and_angle_unguarded (V3 1 0 0)))).
  unfold zero3. intros E. injection E as E. lra.
Defined.

Lemma norm3_x_axis (a : R) : norm3 (V3 a 0 0) = Rabs a.
Proof.
  unfold norm3, sum_sq3. simpl.
  replace (a * (a * 1) + 0 * (0 * 1) + 0 * (0 * 1)) with (Rsqr a)
    by (unfold Rsqr; ring).
  apply sqrt_Rsqr_abs.
Qed.

Lemma argmax_abs_x_axis (a : R) : argmax_abs (V3 a 0 0) = 0%nat.
Proof.
  unfold argmax_abs. simpl. rewrite Rabs_R0.
  pose proof (Rabs_pos a) as Ha.
  destruct (Rle_dec 0 (Rabs a)) as [_ | N]; [reflexivity | contradiction].
Qed.

(** C3, as stated, fails at the rotation by pi about the negative x axis:
    the returned angle is -pi, outside (-pi, pi]. *)
Lemma axis_and_angle_minus_pi :
  V3 (- PI) 0 0 <> zero3
  /\ snd (axis_and_angle_from_rvec (V3 (- PI) 0 0)) = - PI
  /\ ~ (- PI < snd (axis_and_angle_from_rvec (V3 (- PI) 0 0)) <= PI).
Proof.
  pose proof PI_RGT_0 as Hpi.
  assert (Hang : snd (axis_and_angle_from_rvec (V3 (- PI) 0 0)) = - PI).
  { rewrite angle_of_rvec, norm3_x_axis, argmax_abs_x_axis. simpl.
    rewrite Rabs_Ropp, (Rabs_pos_eq PI) by lra.
    assert (Hs : np_sign (- PI) = -1).
    { destruct (np_sign_cases (- PI)) as [[L _] | [_ E]]; [lra | lra | exact E]. }
    rewrite Hs. replace (PI * -1) with (- PI) by ring.
    rewrite Rabs_Ropp, (Rabs_pos_eq PI) by lra.
    destruct (Rgt_dec PI PI) as [G | _]; [lra | reflexivity]. }
  split; [| split].
  - unfold zero3. intros E. injection E as E. lra.
  - exact Hang.
  - rewrite Hang. lra.
Qed.

(** The single re-wrap of the angle also leaves it outside [-pi, pi] once
    the norm exceeds 3 pi. *)
Lemma axis_and_angle_four_pi :
  snd (axis_and_angle_from_rvec (V3 (4 * PI) 0 0)) = 2 * PI.
Proof.
  pose proof PI_RGT_0 as Hpi.
  rewrite angle_of_rvec, norm3_x_axis, argmax_abs_x_axis. simpl.
  rewrite (Rabs_pos_eq (4 * PI)) by lra.
  assert (Hs : np_sign (4 * PI) = 1).
  { destruct (np_sign_cases (4 * PI)) as [[_ E] | [L _]]; [lra | exact E | lra]. }
  rewrite Hs. replace (4 * PI * 1) with (4 * PI) by ring.
  rewrite Hs, (Rabs_pos_eq (4 * PI)) by lra.
  destruct (Rgt_dec (4 * PI) PI) as [_ | N]; [ring | lra].
Qed.

(** C3 (amended): on a nonzero [rvec] the axis is the unit vector
    [s * rvec / norm] for a sign [s], its dominant component is positive,
    the angle is [s * norm], less [s * 2 pi] when the norm exceeds pi, and
    the angle lies in the closed interval [-pi, pi] whenever the norm is at
    most 3 pi. *)
Theorem axis_and_angle_from_rvec_spec (r : vec3) :
  r <> zero3 ->
  exists s : R,
    (s = 1 \/ s = -1)
    /\ fst (axis_and_angle_from_rvec r) = Value (scale3 r (s / norm3 r))
    /\ sum_sq3 (scale3 r (s / norm3 r)) = 1
    /\ 0 < component (scale3 r (s / norm3 r)) (argmax_abs r)
    /\ (forall i, Rabs (component (scale3 r (s / norm3 r)) i)
                  <= component (scale3 r (s / norm3 r)) (argmax_abs r))
    /\ snd (axis_and_angle_from_rvec r)
       = (if Rgt_dec (norm3 r) PI then s * norm3 r - s * 2 * PI
          else s * norm3 r)
    /\ (norm3 r <= 3 * PI ->
        - PI <= snd (axis_and_angle_from_rvec r) <= PI).
Proof.
  intros Hr. pose proof (norm3_pos r Hr) as Hn.
  pose proof PI_RGT_0 as Hpi.
  set (m := component r (argmax_abs r)).
  assert (Hm : m <> 0) by now apply dominant_nonzero.
  exists (np_sign m).
  assert (Hs : (0 < m /\ np_sign m = 1) \/ (m < 0 /\ np_sign m = -1))
    by now apply np_sign_cases.
  assert (Hdom : 0 < m * (np_sign m / norm3 r)).
  { destruct Hs as [[Hp ->] | [Hp ->]].
    - apply Rmult_lt_0_compat; [exact Hp |]. apply Rdiv_lt_0_compat; lra.
    - replace (m * (-1 / norm3 r)) with ((- m) * (1 / norm3 r)) by (field; lra).
      apply Rmult_lt_0_compat; [lra |]. apply Rdiv_lt_0_compat; lra. }
  assert (Hang : snd (axis_and_angle_from_rvec r)
    = (if Rgt_dec (norm3 r) PI then np_sign m * norm3 r - np_sign m * 2 * PI
       else np_sign m * norm3 r)).
  { rewrite angle_of_rvec. fold m. cbv zeta.
    assert (Ha : Rabs (norm3 r * np_sign m) = norm3 r).
    { destruct Hs as [[_ ->] | [_ ->]].
      - rewrite Rmult_1_r. apply Rabs_pos_eq. lra.
      - replace (norm3 r * -1) with (- norm3 r) by ring.
        rewrite Rabs_Ropp. apply Rabs_pos_eq. lra. }
    rewrite Ha.
    assert (Hss : np_sign (norm3 r * np_sign m) = np_sign m).
    { destruct Hs as [[_ E] | [_ E]]; rewrite E.
      - destruct (np_sign_cases (norm3 r * 1)) as [[_ F] | [L _]]; lra.
      - destruct (np_sign_cases (norm3 r * -1)) as [[L _] | [_ F]]; lra. }
    rewrite Hss.
    destruct (Rgt_dec (norm3 r) PI); ring. }
  split; [| split; [| split; [| split; [| split; [| split]]]]].
  - destruct Hs as [[_ ->] | [_ ->]]; [now left | now right].
  - now apply axis_of_nonzero.
  - rewrite sum_sq3_scale3, <- norm3_sq.
    destruct Hs as [[_ ->] | [_ ->]]; field; lra.
  - rewrite component_scale3. exact Hdom.
  - intros i. rewrite !component_scale3. fold m.
    rewrite Rabs_mult.
    replace (m * (np_sign m / norm3 r))
      with (Rabs m * Rabs (np_sign m / norm3 r)).
    + apply Rmult_le_compat_r; [apply Rabs_pos | apply argmax_abs_max].
    + rewrite <- Rabs_mult. apply Rabs_pos_eq. lra.
  - exact Hang.
  - intros Hb. rewrite Hang.
    destruct (Rgt_dec (norm3 r) PI) as [G | NG];
      destruct Hs as [[_ ->] | [_ ->]]; lra.
Qed.

Lemma axis_and_angle_from_rvec_spec_witness :
  exists s : R,
    (s = 1 \/ s = -1)
    /\ fst (axis_and_angle_from_rvec (V3 0 2 0))
       = Value (scale3 (V3 0 2 0) (s / norm3 (V3 0 2 0)))
    /\ sum_sq3 (scale3 (V3 0 2 0) (s / norm3 (V3 0 2 0))) = 1
    /\ 0 < component (scale3 (V3 0 2 0) (s / norm3 (V3 0 2 0)))
                     (argmax_abs (V3 0 2 0))
    /\ (forall i, Rabs (component (scale3 (V3 0 2 0) (s / norm3 (V3 0 2 0))) i)
                  <= component (scale3 (V3 0 2 0) (s / norm3 (V3 0 2 0)))
                               (argmax_abs (V3 0 2 0)))
    /\ snd (axis_and_angle_from_rvec (V3 0 2 0))
       = (if Rgt_dec (norm3 (V3 0 2 0)) PI
          then s * norm3 (V3 0 2 0) - s * 2 * PI
          else s * norm3 (V3 0 2 0))
    /\ (norm3 (V3 0 2 0) <= 3 * PI ->
        - PI <= snd (axis_and_angle_from_rvec (V3 0 2 0)) <= PI).
Proof.
  apply (axis_and_angle_from_rvec_spec (V3 0 2 0)).
  unfold zero3. intros E. injection E as E. lra.
Defined.

(** ** Quaternion to axis-angle: the argument array *)

Lemma rvec_from_quat_run_small (q : vec4) :
  vw q <= 1 -> rvec_from_quat_run q = (q, rvec_of_buffer q).
Proof.
  intros Hw. unfold rvec_from_quat_run.
  destruct (Rgt_dec (vw q) 1) as [G | _]; [lra | reflexivity].
Qed.

Lemma norm4_pos_of_w (q : vec4) : 1 < vw q -> 1 < norm4 q.
Proof.
  intros Hw. unfold norm4. rewrite <- sqrt_1.
  apply sqrt_lt_1; [lra | apply sum_sq4_nonneg |].
  unfold sum_sq4.
  pose proof (pow2_ge_0 (vx q)). pose proof (pow2_ge_0 (vy q)).
  pose proof (pow2_ge_0 (vz q)).
  assert (1 < vw q ^ 2) by nra. lra.
Qed.

Lemma rvec_from_quat_run_large (q : vec4) :
  1 < vw q ->
  fst (rvec_from_quat_run q)
  = V4 (vx q / norm4 q) (vy q / norm4 q) (vz q / norm4 q) (vw q / norm4 q).
Proof.
  intros Hw. pose proof (norm4_pos_of_w q Hw) as Hn.
  unfold rvec_from_quat_run.
  destruct (Rgt_dec (vw q) 1) as [_ | N]; [| lra].
  rewrite div4_nonzero by lra. reflexivity.
Qed.

Lemma norm4_w_axis (a : R) : norm4 (V4 0 0 0 a) = Rabs a.
Proof.
  unfold norm4, sum_sq4. simpl.
  replace (0 * (0 * 1) + 0 * (0 * 1) + 0 * (0 * 1) + a * (a * 1))
    with (Rsqr a) by (unfold Rsqr; ring).
  apply sqrt_Rsqr_abs.
Qed.

(** C2 fails on the code: called on the array (0, 0, 0, 2), whose w exceeds
    1, [rvec_from_quat] leaves (0, 0, 0, 1) in the caller's array. *)
Theorem rvec_from_quat_overwrites_argument :
  fst (rvec_from_quat_run (V4 0 0 0 2)) = V4 0 0 0 1
  /\ fst (rvec_from_quat_run (V4 0 0 0 2)) <> V4 0 0 0 2.
Proof.
  assert (H : fst (rvec_from_quat_run (V4 0 0 0 2)) = V4 0 0 0 1).
  { rewrite rvec_from_quat_run_large by (simpl; lra).
    rewrite norm4_w_axis, Rabs_pos_eq by lra. simpl.
    f_equal; field. }
  split; [exact H |].
  rewrite H. intros E. injection E as E. lra.
Qed.

(** Every quaternion whose w exceeds 1 is overwritten, and no other is. *)
Lemma rvec_from_quat_argument_effect (q : vec4) :
  (1 < vw q -> fst (rvec_from_quat_run q) <> q)
  /\ (vw q <= 1 -> fst (rvec_from_quat_run q) = q).
Proof.
  split.
  - intros Hw. pose proof (norm4_pos_of_w q Hw) as Hn.
    rewrite rvec_from_quat_run_large by exact Hw.
    destruct q as [a b c d]. simpl in *.
    set (n := norm4 (V4 a b c d)) in *.
    intros E. injection E as _ _ _ E.
    assert (F : d / n * n = d) by (field; lra).
    rewrite E in F. nra.
  - intros Hw. now rewrite rvec_from_quat_run_small.
Qed.

(** ** Round trip between axis-angle vectors and quaternions *)

Lemma quat_from_rvec_nonzero (r : vec3) :
  0 < norm3 r ->
  quat_from_rvec r
  = Value (V4 (ux r * sin (norm3 r / 2) / norm3 r)
              (uy r * sin (norm3 r / 2) / norm3 r)
              (uz r * sin (norm3 r / 2) / norm3 r)
              (cos (norm3 r / 2))).
Proof.
  intros Hn. unfold quat_from_rvec.
  destruct (Rgt_dec (norm3 r) 0) as [_ | N]; [| lra].
  rewrite div3_nonzero by lra. reflexivity.
Qed.

Lemma rvec_of_buffer_in_range (q : vec4) :
  -1 <= vw q <= 1 ->
  rvec_of_buffer q
  = let angle := 2 * acos (vw q) in
    let s := sqrt (1 - vw q ^ 2) in
    if Rlt_dec s (1 / 1000) then Value (scale3 (V3 1 0 0) angle)
    else Value (scale3 (V3 (vx q / s) (vy q / s) (vz q / s)) angle).
Proof.
  intros Hw. unfold rvec_of_buffer, checked_acos, checked_sqrt.
  destruct (Rlt_dec (vw q) (-1)) as [L | _]; [lra |].
  destruct (Rgt_dec (vw q) 1) as [G | _]; [lra |].
  simpl.
  destruct (Rlt_dec (1 - vw q * (vw q * 1)) 0) as [L | _]; [nra |].
  simpl.
  destruct (Rlt_dec (sqrt (1 - vw q * (vw q * 1))) (1 / 1000)) as [L | NL];
    [reflexivity |].
  rewrite div3_nonzero by lra. reflexivity.
Qed.

Lemma rvec_from_quat_in_range (q : vec4) :
  -1 <= vw q <= 1 ->
  rvec_from_quat q
  = let angle := 2 * acos (vw q) in
    let s := sqrt (1 - vw q ^ 2) in
    if Rlt_dec s (1 / 1000) then Value (scale3 (V3 1 0 0) angle)
    else Value (scale3 (V3 (vx q / s) (vy q / s) (vz q / s)) angle).
Proof.
  intros Hw. unfold rvec_from_quat.
  rewrite rvec_from_quat_run_small by lra. simpl.
  now apply rvec_of_buffer_in_range.
Qed.

Lemma sqrt_one_minus_cos2 (a : R) : sqrt (1 - cos a ^ 2) = Rabs (sin a).
Proof.
  replace (1 - cos a ^ 2) with (Rsqr (sin a)).
  - apply sqrt_Rsqr_abs.
  - pose proof (sin2_cos2 a) as H. unfold Rsqr in *. nra.
Qed.

Lemma round_trip_unfold (r : vec3) :
  0 < norm3 r ->
  (q <- quat_from_rvec r ;; rvec_from_quat q)
  = let n := norm3 r in
    let w := cos (n / 2) in
    let s := Rabs (sin (n / 2)) in
    if Rlt_dec s (1 / 1000) then Value (scale3 (V3 1 0 0) (2 * acos w))
    else Value (scale3 (V3 (ux r * sin (n / 2) / n / s)
                           (uy r * sin (n / 2) / n / s)
                           (uz r * sin (n / 2) / n / s)) (2 * acos w)).
Proof.
  intros Hn. rewrite quat_from_rvec_nonzero by exact Hn.
  cbn [bind]. pose proof (COS_bound (norm3 r / 2)) as Hc.
  rewrite rvec_from_quat_in_range by (cbn [vw]; lra).
  cbn [vw vx vy vz]. cbv zeta. rewrite sqrt_one_minus_cos2. reflexivity.
Qed.

Lemma acos_cos_wrapped (a : R) :
  PI <= a <= 2 * PI -> acos (cos a) = 2 * PI - a.
Proof.
  intros Ha.
  replace (cos a) with (cos (2 * PI - a)).
  - apply acos_cos. lra.
  - rewrite cos_minus, cos_2PI, sin_2PI. ring.
Qed.

(** ** Composition of a delta rotation *)

Lemma quat_from_rvec_unit (r : vec3) (q : vec4) :
  quat_from_rvec r = Value q -> sum_sq4 q = 1.
Proof.
  unfold quat_from_rvec.
  destruct (Rgt_dec (norm3 r) 0) as [G | _].
  - rewrite div3_nonzero by lra. cbn [bind ux uy uz scale3].
    intros E. injection E as <-. unfold sum_sq4. cbn [vx vy vz vw].
    pose proof (norm3_sq r) as Hn. unfold sum_sq3 in Hn.
    pose proof (sin2_cos2 (norm3 r / 2)) as Hsc. unfold Rsqr in Hsc.
    set (n := norm3 r) in *. set (sn := sin (n / 2)) in *.
    set (cs := cos (n / 2)) in *.
    replace ((ux r * sn / n) ^ 2 + (uy r * sn / n) ^ 2
             + (uz r * sn / n) ^ 2 + cs ^ 2)
      with ((ux r ^ 2 + uy r ^ 2 + uz r ^ 2) / (n * n) * (sn * sn) + cs * cs)
      by (field; lra).
    rewrite <- Hn. replace (n * n / (n * n)) with 1 by (field; lra). lra.
  - intros E. injection E as <-. unfold sum_sq4. simpl. ring.
Qed.

Lemma quat_from_rvec_defined (r : vec3) : exists q, quat_from_rvec r = Value q.
Proof.
  unfold quat_from_rvec.
  destruct (Rgt_dec (norm3 r) 0) as [G | _].
  - rewrite div3_nonzero by lra. eexists. reflexivity.
  - eexists. reflexivity.
Qed.

Lemma sum_sq4_mult_quat (a b : vec4) :
  sum_sq4 (mult_quat a b) = sum_sq4 a * sum_sq4 b.
Proof. unfold sum_sq4, mult_quat. simpl. ring. Qed.

Lemma sum_sq4_conjugate (q : vec4) :
  sum_sq4 (V4 (- vx q) (- vy q) (- vz q) (vw q)) = sum_sq4 q.
Proof. unfold sum_sq4. simpl. ring. Qed.

Lemma delta_quat_unit (q2 q1 : vec4) :
  sum_sq4 q1 = 1 ->
  delta_quat q2 q1
  = Value (mult_quat q2 (V4 (- vx q1) (- vy q1) (- vz q1) (vw q1))).
Proof.
  intros Hu. unfold delta_quat. now rewrite inv_quat_unit.
Qed.

Lemma mult_quat_delta_unit (q2 q1 : vec4) :
  sum_sq4 q1 = 1 ->
  mult_quat (mult_quat q2 (V4 (- vx q1) (- vy q1) (- vz q1) (vw q1))) q1 = q2.
Proof.
  intros Hu. destruct q2 as [a b c d]. destruct q1 as [x y z w].
  unfold sum_sq4 in Hu. unfold mult_quat. cbn [vx vy vz vw] in *.
  f_equal.
  - replace a with (a * (x ^ 2 + y ^ 2 + z ^ 2 + w ^ 2)) at 5 by (rewrite Hu; ring).
    ring.
  - replace b with (b * (x ^ 2 + y ^ 2 + z ^ 2 + w ^ 2)) at 5 by (rewrite Hu; ring).
    ring.
  - replace c with (c * (x ^ 2 + y ^ 2 + z ^ 2 + w ^ 2)) at 5 by (rewrite Hu; ring).
    ring.
  - replace d with (d * (x ^ 2 + y ^ 2 + z ^ 2 + w ^ 2)) at 5 by (rewrite Hu; ring).
    ring.
Qed.

Lemma norm3_scale3_unit (u : vec3) (t : R) :
  sum_sq3 u = 1 -> 0 <= t -> norm3 (scale3 u t) = t.
Proof.
  intros Hu Ht. unfold norm3. rewrite sum_sq3_scale3, Hu, Rmult_1_l.
  now apply sqrt_pow2.
Qed.

Lemma quat_from_rvec_axis (u : vec3) (t : R) :
  sum_sq3 u = 1 -> 0 < t ->
  quat_from_rvec (scale3 u t)
  = Value (V4 (ux u * sin (t / 2)) (uy u * sin (t / 2)) (uz u * sin (t / 2))
              (cos (t / 2))).
Proof.
  intros Hu Ht.
  assert (Hn : norm3 (scale3 u t) = t) by (apply norm3_scale3_unit; lra).
  rewrite quat_from_rvec_nonzero by lra. rewrite Hn.
  unfold scale3. cbn [ux uy uz]. do 2 f_equal; field; lra.
Qed.

(** Outside the singularity band, converting a unit quaternion to an
    axis-angle vector and back returns the quaternion. *)
Lemma quat_of_rvec_of_unit_quat (d : vec4) :
  sum_sq4 d = 1 -> 1 / 1000 <= sqrt (1 - vw d ^ 2) ->
  (r <- rvec_from_quat d ;; quat_from_rvec r) = Value d.
Proof.
  intros Hu Hs. set (s := sqrt (1 - vw d ^ 2)) in *.
  assert (Hpos : 0 < 1 - vw d ^ 2).
  { destruct (Rlt_dec 0 (1 - vw d ^ 2)) as [L | N]; [exact L |].
    exfalso. unfold s in Hs. rewrite sqrt_neg_0 in Hs by lra. lra. }
  assert (Hw : -1 < vw d < 1) by nra.
  assert (Hss : s * s = 1 - vw d ^ 2) by (apply sqrt_sqrt; lra).
  rewrite rvec_from_quat_in_range by lra. cbv zeta. fold s.
  destruct (Rlt_dec s (1 / 1000)) as [L | _]; [lra |].
  cbn [bind].
  pose proof (acos_bound_lt (vw d) Hw) as Ha.
  rewrite quat_from_rvec_axis.
  - replace (2 * acos (vw d) / 2) with (acos (vw d)) by field.
    rewrite sin_acos, cos_acos by lra.
    replace (1 - (vw d)²) with (1 - vw d ^ 2) by (unfold Rsqr; ring).
    fold s. cbn [ux uy uz]. destruct d as [x y z w]. cbn [vx vy vz vw].
    do 2 f_equal; field; lra.
  - unfold sum_sq3. cbn [ux uy uz]. unfold sum_sq4 in Hu.
    replace ((vx d / s) ^ 2 + (vy d / s) ^ 2 + (vz d / s) ^ 2)
      with ((vx d ^ 2 + vy d ^ 2 + vz d ^ 2) / (s * s)) by (field; lra).
    rewrite Hss.
    replace (vx d ^ 2 + vy d ^ 2 + vz d ^ 2) with (1 - vw d ^ 2) by lra.
    field. lra.
  - lra.
Qed.

(** C6 (amended): when the delta quaternion of [r2] relative to [r1] is
    outside the singularity band of [rvec_from_quat]
    ([sqrt (1 - w^2) >= 1e-3]), accumulating [delta_rvec r2 r1] onto [r1]
    gives exactly the quaternion of [r2]. *)
Theorem delta_rvec_composition (r2 r1 : vec3) (q2 q1 d : vec4) :
  quat_from_rvec r2 = Value q2 ->
  quat_from_rvec r1 = Value q1 ->
  delta_quat q2 q1 = Value d ->
  1 / 1000 <= sqrt (1 - vw d ^ 2) ->
  accumulate_delta r2 r1 = Value q2.
Proof.
  intros H2 H1 Hd Hs.
  pose proof (quat_from_rvec_unit _ _ H2) as U2.
  pose proof (quat_from_rvec_unit _ _ H1) as U1.
  assert (Ed : d = mult_quat q2 (V4 (- vx q1) (- vy q1) (- vz q1) (vw q1))).
  { rewrite delta_quat_unit in Hd by exact U1. now injection Hd as <-. }
  assert (Ud : sum_sq4 d = 1).
  { rewrite Ed, sum_sq4_mult_quat, U2, sum_sq4_conjugate, U1. ring. }
  pose proof (quat_of_rvec_of_unit_quat d Ud Hs) as Hback.
  unfold accumulate_delta, delta_rvec. rewrite H2, H1. cbn [bind].
  rewrite Hd. cbn [bind].
  destruct (rvec_from_quat d) as [rd | f]; cbn [bind] in *; [| discriminate].
  rewrite Hback. cbn [bind]. f_equal. rewrite Ed.
  now apply mult_quat_delta_unit.
Qed.

Lemma quat_from_rvec_zero : quat_from_rvec zero3 = Value (V4 0 0 0 1).
Proof.
  unfold quat_from_rvec.
  replace (norm3 zero3) with 0 by (symmetry; now apply norm3_zero).
  destruct (Rgt_dec 0 0) as [G | _]; [lra | reflexivity].
Qed.

Lemma quat_from_rvec_y_axis (t : R) :
  0 < t -> quat_from_rvec (V3 0 t 0) = Value (V4 0 (sin (t / 2)) 0 (cos (t / 2))).
Proof.
  intros Ht.
  replace (V3 0 t 0) with (scale3 (V3 0 1 0) t)
    by (unfold scale3; cbn [ux uy uz]; f_equal; ring).
  rewrite quat_from_rvec_axis by (unfold sum_sq3; cbn [ux uy uz]; lra).
  cbn [ux uy uz]. do 2 f_equal; ring.
Qed.

Lemma quat_from_rvec_x_axis (t : R) :
  0 < t -> quat_from_rvec (V3 t 0 0) = Value (V4 (sin (t / 2)) 0 0 (cos (t / 2))).
Proof.
  intros Ht.
  replace (V3 t 0 0) with (scale3 (V3 1 0 0) t)
    by (unfold scale3; cbn [ux uy uz]; f_equal; ring).
  rewrite quat_from_rvec_axis by (unfold sum_sq3; cbn [ux uy uz]; lra).
  cbn [ux uy uz]. do 2 f_equal; ring.
Qed.

Lemma delta_quat_identity (q : vec4) : delta_quat q (V4 0 0 0 1) = Value q.
Proof.
  rewrite delta_quat_unit by (unfold sum_sq4; cbn [vx vy vz vw]; ring).
  destruct q as [a b c d]. unfold mult_quat. cbn [vx vy vz vw].
  do 2 f_equal; ring.
Qed.

Lemma mult_quat_identity (q : vec4) : mult_quat q (V4 0 0 0 1) = q.
Proof.
  destruct q as [a b c d]. unfold mult_quat. cbn [vx vy vz vw]. f_equal; ring.
Qed.

(** Inside the singularity band the axis of the delta is replaced by the
    x axis. *)
Lemma rvec_from_quat_band_y (h : R) :
  0 < h < 1 / 1000 ->
  rvec_from_quat (V4 0 (sin h) 0 (cos h)) = Value (V3 (2 * h) 0 0).
Proof.
  intros Hh. pose proof PI_RGT_0 as Hpi. pose proof PI2_3_2 as Hp2.
  pose proof (COS_bound h) as Hc.
  rewrite rvec_from_quat_in_range by (cbn [vw]; lra).
  cbn [vw vx vy vz]. cbv zeta. rewrite sqrt_one_minus_cos2.
  assert (0 < sin h) by (apply sin_gt_0; lra).
  pose proof (sin_lt_x h) as Hlt.
  rewrite Rabs_pos_eq by lra.
  destruct (Rlt_dec (sin h) (1 / 1000)) as [_ | N]; [| lra].
  rewrite acos_cos by lra. unfold scale3. cbn [ux uy uz].
  do 2 f_equal; ring.
Qed.

(** C6, as stated, fails for [r1 = 0] and [r2] a rotation by 1e-3 about the
    y axis: the delta falls in the singularity band, its axis is replaced by
    the x axis, and the composition is a rotation about x. *)
Lemma delta_rvec_composition_fails :
  quat_from_rvec (V3 0 (1 / 1000) 0)
  = Value (V4 0 (sin (1 / 2000)) 0 (cos (1 / 2000)))
  /\ accumulate_delta (V3 0 (1 / 1000) 0) zero3
     = Value (V4 (sin (1 / 2000)) 0 0 (cos (1 / 2000)))
  /\ V4 (sin (1 / 2000)) 0 0 (cos (1 / 2000))
     <> V4 0 (sin (1 / 2000)) 0 (cos (1 / 2000))
  /\ V4 (sin (1 / 2000)) 0 0 (cos (1 / 2000))
     <> neg4 (V4 0 (sin (1 / 2000)) 0 (cos (1 / 2000))).
Proof.
  pose proof PI_RGT_0 as Hpi. pose proof PI2_3_2 as Hp2.
  assert (Hsin : 0 < sin (1 / 2000)) by (apply sin_gt_0; lra).
  assert (H2 : quat_from_rvec (V3 0 (1 / 1000) 0)
               = Value (V4 0 (sin (1 / 2000)) 0 (cos (1 / 2000)))).
  { rewrite quat_from_rvec_y_axis by lra.
    replace (1 / 1000 / 2) with (1 / 2000) by lra. reflexivity. }
  split; [exact H2 |]. split; [| split].
  - unfold accumulate_delta, delta_rvec.
    rewrite H2, quat_from_rvec_zero. cbn [bind].
    rewrite delta_quat_identity. cbn [bind].
    rewrite rvec_from_quat_band_y by lra. cbn [bind].
    rewrite quat_from_rvec_x_axis by lra. cbn [bind].
    rewrite mult_quat_identity.
    replace (2 * (1 / 2000) / 2) with (1 / 2000) by lra. reflexivity.
  - intros E. injection E as E _. lra.
  - unfold neg4. cbn [vx vy vz vw]. intros E. injection E as E _. lra.
Qed.

Lemma delta_rvec_composition_witness :
  accumulate_delta (V3 PI 0 0) zero3
  = Value (V4 (sin (PI / 2)) 0 0 (cos (PI / 2))).
Proof.
  pose proof PI_RGT_0 as Hpi.
  apply (delta_rvec_composition (V3 PI 0 0) zero3
           (V4 (sin (PI / 2)) 0 0 (cos (PI / 2))) (V4 0 0 0 1)
           (V4 (sin (PI / 2)) 0 0 (cos (PI / 2)))).
  - apply quat_from_rvec_x_axis. lra.
  - apply quat_from_rvec_zero.
  - apply delta_quat_identity.
  - cbn [vw]. rewrite cos_PI2.
    replace (1 - 0 ^ 2) with 1 by ring. rewrite sqrt_1. lra.
Defined.

(** ** 4x4 matrices *)

Ltac unfold_mat4 :=
  unfold set_bottom_row, mmul4, transpose4, row_mat4_t, dot4, eye4;
  cbn [vx vy vz vw m4_0 m4_1 m4_2 m4_3].

Ltac entries_ring := f_equal; f_equal; ring.

Ltac entries_field H := f_equal; f_equal; field; exact H.

Lemma transpose4_involutive (A : mat4) : transpose4 (transpose4 A) = A.
Proof. destruct A as [[] [] [] []]. reflexivity. Qed.

Lemma mmul4_eye4_l (A : mat4) : mmul4 eye4 A = A.
Proof.
  destruct A as [[] [] [] []]. unfold_mat4. entries_ring.
Qed.

Lemma mmul4_eye4_r (A : mat4) : mmul4 A eye4 = A.
Proof.
  destruct A as [[] [] [] []]. unfold_mat4. entries_ring.
Qed.

Lemma row_mat4_assoc (r : vec4) (B C : mat4) :
  row_mat4_t (row_mat4_t r (transpose4 B)) (transpose4 C)
  = row_mat4_t r (transpose4 (mmul4 B C)).
Proof.
  destruct r, B as [[] [] [] []], C as [[] [] [] []].
  unfold_mat4. f_equal; ring.
Qed.

Lemma mmul4_assoc (A B C : mat4) :
  mmul4 (mmul4 A B) C = mmul4 A (mmul4 B C).
Proof.
  unfold mmul4 at 1 2 3. cbn [m4_0 m4_1 m4_2 m4_3].
  now rewrite !row_mat4_assoc.
Qed.

Lemma transpose4_mmul4 (A B : mat4) :
  transpose4 (mmul4 A B) = mmul4 (transpose4 B) (transpose4 A).
Proof.
  destruct A as [[] [] [] []], B as [[] [] [] []].
  unfold_mat4. entries_ring.
Qed.

Lemma det4_transpose4 (A : mat4) : det4 (transpose4 A) = det4 A.
Proof.
  destruct A as [[] [] [] []].
  unfold det4, cofactor, minor, drop_col, det3, det2, transpose4. simpl. ring.
Qed.

Ltac adjugate_entry M d Ed Hd :=
  match goal with
  | |- _ = 1 =>
      transitivity (det4 M * / d);
      [ unfold det4, cofactor, minor, drop_col, det3, det2; simpl; ring
      | rewrite <- Ed; field; exact Hd ]
  | |- _ = 0 =>
      transitivity (0 * / d);
      [ unfold det4, cofactor, minor, drop_col, det3, det2; simpl; ring
      | ring ]
  end.

Lemma adjugate_over_det4_r (A : mat4) :
  det4 A <> 0 -> mmul4 A (adjugate_over_det4 A) = eye4.
Proof.
  intros Hd. destruct A as [[] [] [] []].
  match type of Hd with det4 ?M <> 0 =>
    remember (det4 M) as d eqn:Ed;
    unfold adjugate_over_det4, mmul4, transpose4, row_mat4_t, dot4, eye4;
    rewrite <- Ed; cbn [vx vy vz vw m4_0 m4_1 m4_2 m4_3]; unfold Rdiv;
    f_equal; f_equal; adjugate_entry M d Ed Hd
  end.
Qed.

Lemma adjugate_over_det4_l (A : mat4) :
  det4 A <> 0 -> mmul4 (adjugate_over_det4 A) A = eye4.
Proof.
  intros Hd. destruct A as [[] [] [] []].
  match type of Hd with det4 ?M <> 0 =>
    remember (det4 M) as d eqn:Ed;
    unfold adjugate_over_det4, mmul4, transpose4, row_mat4_t, dot4, eye4;
    rewrite <- Ed; cbn [vx vy vz vw m4_0 m4_1 m4_2 m4_3]; unfold Rdiv;
    f_equal; f_equal; adjugate_entry M d Ed Hd
  end.
Qed.

(** ** Relative pose *)

Lemma cv_solve_exact (lstsq : mat4 -> mat4 -> mat4) (A B : mat4) :
  det4 A <> 0 -> mmul4 A (cv_solve lstsq A B) = B.
Proof.
  intros Hd. unfold cv_solve.
  destruct (Req_dec_T (det4 A) 0) as [E | _]; [contradiction |].
  now rewrite <- mmul4_assoc, adjugate_over_det4_r, mmul4_eye4_l.
Qed.

Lemma mmul4_set_bottom_row (Y P : mat4) :
  m4_3 P = V4 0 0 0 1 ->
  mmul4 (set_bottom_row Y) P
  = M4 (m4_0 (mmul4 Y P)) (m4_1 (mmul4 Y P)) (m4_2 (mmul4 Y P)) (V4 0 0 0 1).
Proof.
  destruct Y as [y0 y1 y2 y3], P as [[] [] [] p3]. cbn [m4_3]. intros ->.
  unfold_mat4. f_equal. f_equal; ring.
Qed.

Lemma solution_unique (Z P1 P2 : mat4) :
  det4 P1 <> 0 -> mmul4 Z P1 = P2 -> Z = mmul4 P2 (adjugate_over_det4 P1).
Proof.
  intros Hd <-.
  now rewrite mmul4_assoc, adjugate_over_det4_r, mmul4_eye4_r.
Qed.

Lemma delta_P_times_P1 (lstsq : mat4 -> mat4 -> mat4) (P2 P1 : mat4) :
  m4_3 P1 = V4 0 0 0 1 -> m4_3 P2 = V4 0 0 0 1 -> det4 P1 <> 0 ->
  mmul4 (delta_P lstsq P2 P1) P1 = P2.
Proof.
  intros B1 B2 Hd. unfold delta_P.
  set (X := cv_solve lstsq (transpose4 P1) (transpose4 P2)).
  assert (HX : mmul4 (transpose4 X) P1 = P2).
  { replace (mmul4 (transpose4 X) P1)
      with (transpose4 (mmul4 (transpose4 P1) X))
      by now rewrite transpose4_mmul4, transpose4_involutive.
    unfold X. rewrite cv_solve_exact by now rewrite det4_transpose4.
    apply transpose4_involutive. }
  rewrite mmul4_set_bottom_row by exact B1. rewrite HX, <- B2.
  now destruct P2.
Qed.

Lemma delta_P_closed_form (lstsq : mat4 -> mat4 -> mat4) (P2 P1 : mat4) :
  m4_3 P1 = V4 0 0 0 1 -> m4_3 P2 = V4 0 0 0 1 -> det4 P1 <> 0 ->
  delta_P lstsq P2 P1 = mmul4 P2 (adjugate_over_det4 P1).
Proof.
  intros B1 B2 Hd. apply solution_unique; [exact Hd |].
  now apply delta_P_times_P1.
Qed.

(** C1 (amended): for homogeneous [P1], [P2] with [P1] invertible, the
    solver returns the exact solution [X] of [P1^T . X = P2^T]; [delta_P]
    is its transpose (forcing the bottom row changes nothing) and is the
    unique [P] with [P . P1 = P2], as the docstring says. *)
Theorem delta_P_solves (lstsq : mat4 -> mat4 -> mat4) (P2 P1 : mat4) :
  m4_3 P1 = V4 0 0 0 1 -> m4_3 P2 = V4 0 0 0 1 -> det4 P1 <> 0 ->
  mmul4 (transpose4 P1) (cv_solve lstsq (transpose4 P1) (transpose4 P2))
  = transpose4 P2
  /\ delta_P lstsq P2 P1
     = transpose4 (cv_solve lstsq (transpose4 P1) (transpose4 P2))
  /\ mmul4 (delta_P lstsq P2 P1) P1 = P2
  /\ (forall Z, mmul4 Z P1 = P2 -> Z = delta_P lstsq P2 P1).
Proof.
  intros B1 B2 Hd.
  assert (HX : mmul4 (transpose4 P1)
                 (cv_solve lstsq (transpose4 P1) (transpose4 P2))
               = transpose4 P2).
  { apply cv_solve_exact. now rewrite det4_transpose4. }
  split; [exact HX |]. split; [| split].
  - rewrite (delta_P_closed_form lstsq P2 P1 B1 B2 Hd).
    symmetry. apply solution_unique; [exact Hd |].
    replace (mmul4 (transpose4 (cv_solve lstsq (transpose4 P1) (transpose4 P2)))
               P1)
      with (transpose4 (mmul4 (transpose4 P1)
                          (cv_solve lstsq (transpose4 P1) (transpose4 P2))))
      by now rewrite transpose4_mmul4, transpose4_involutive.
    rewrite HX. apply transpose4_involutive.
  - now apply delta_P_times_P1.
  - intros Z HZ. rewrite (delta_P_closed_form lstsq P2 P1 B1 B2 Hd).
    now apply solution_unique.
Qed.

Lemma det4_pose_shift_x : det4 pose_shift_x <> 0.
Proof.
  unfold det4, cofactor, minor, drop_col, det3, det2, pose_shift_x. simpl. lra.
Qed.

Lemma delta_P_turn_shift (lstsq : mat4 -> mat4 -> mat4) :
  delta_P lstsq pose_turn_z pose_shift_x
  = M4 (V4 0 (-1) 0 0) (V4 1 0 0 (-1)) (V4 0 0 1 0) (V4 0 0 0 1).
Proof.
  rewrite delta_P_closed_form by (reflexivity || apply det4_pose_shift_x).
  symmetry. apply solution_unique; [apply det4_pose_shift_x |].
  unfold pose_shift_x, pose_turn_z. unfold_mat4. entries_ring.
Qed.

(** C1, as stated, fails: with [P1] the shift and [P2] the quarter turn,
    both homogeneous and [P1] invertible, [P1 . delta_P(P2, P1)] is not
    [P2]. *)
Lemma delta_P_left_composition_fails :
  m4_3 pose_shift_x = V4 0 0 0 1
  /\ m4_3 pose_turn_z = V4 0 0 0 1
  /\ det4 pose_shift_x <> 0
  /\ (forall lstsq,
        mmul4 pose_shift_x (delta_P lstsq pose_turn_z pose_shift_x)
        <> pose_turn_z).
Proof.
  split; [reflexivity |]. split; [reflexivity |].
  split; [apply det4_pose_shift_x |].
  intros lstsq. rewrite delta_P_turn_shift.
  unfold pose_shift_x, pose_turn_z. unfold_mat4.
  intros E. injection E as _ _ _ E _ _ _ _ _ _ _ _. lra.
Qed.

Lemma delta_P_solves_witness :
  mmul4 (delta_P (fun _ B => B) pose_turn_z pose_shift_x) pose_shift_x
  = pose_turn_z.
Proof.
  apply (delta_P_solves (fun _ B => B) pose_turn_z pose_shift_x).
  - reflexivity.
  - reflexivity.
  - apply det4_pose_shift_x.
Defined.

(** ** Bottom row of the pose matrices *)

Lemma P_from_R_and_t_bottom (R : mat3) (t : vec3) :
  m4_3 (P_from_R_and_t R t) = V4 0 0 0 1.
Proof. reflexivity. Qed.

Lemma delta_P_bottom (lstsq : mat4 -> mat4 -> mat4) (P2 P1 : mat4) :
  m4_3 (delta_P lstsq P2 P1) = V4 0 0 0 1.
Proof. reflexivity. Qed.

(** C4: [P_from_R_and_t], [P_inv] (on an invertible rotation block, where it
    returns) and [delta_P] (whatever the solver returned) all yield the
    bottom row (0, 0, 0, 1). *)
Theorem pose_bottom_row :
  (forall R t, m4_3 (P_from_R_and_t R t) = V4 0 0 0 1)
  /\ (forall P, det3 (rotation_block P) <> 0 ->
        exists Q, P_inv P = Value Q /\ m4_3 Q = V4 0 0 0 1)
  /\ (forall lstsq P2 P1, m4_3 (delta_P lstsq P2 P1) = V4 0 0 0 1).
Proof.
  split; [exact P_from_R_and_t_bottom |]. split; [| exact delta_P_bottom].
  intros P Hd. unfold P_inv, LA_inv.
  destruct (Req_dec_T (det3 (rotation_block P)) 0) as [E | _];
    [contradiction |].
  cbn [bind]. eexists. split; [reflexivity | apply P_from_R_and_t_bottom].
Qed.

Lemma pose_bottom_row_witness :
  exists Q, P_inv eye4 = Value Q /\ m4_3 Q = V4 0 0 0 1.
Proof.
  apply (proj1 (proj2 pose_bottom_row) eye4).
  unfold det3, det2, rotation_block, eye4. simpl. lra.
Defined.

(** ** Projection of points *)

Lemma Rgtb_true (a b : R) : Rgtb a b = true <-> a > b.
Proof.
  unfold Rgtb. destruct (Rgt_dec a b) as [G | N]; split; intros H;
    try assumption; try reflexivity; try discriminate; contradiction.
Qed.

Lemma proj_row_identity_depth (K : mat3) (p : vec3) :
  m3_2 K = V3 0 0 1 -> uz (proj_row eye4 K p) = uz p.
Proof.
  intros HK. unfold proj_row, homogeneous, eye4, dot4, dot3.
  cbn [ux uy uz vx vy vz vw m4_0 m4_1 m4_2]. rewrite HK.
  cbn [ux uy uz]. ring.
Qed.

Lemma pixel_of_row_nonzero (r : vec3) :
  uz r <> 0 ->
  pixel_of_row r = Value (astype_int (rint (ux r / uz r)),
                          astype_int (rint (uy r / uz r))).
Proof.
  intros Hz. unfold pixel_of_row. now rewrite !checked_div_nonzero.
Qed.

Lemma pixel_of_row_zero (r : vec3) :
  uz r = 0 -> pixel_of_row r = Fault DivisionByZero.
Proof.
  intros Hz. unfold pixel_of_row. rewrite Hz. now rewrite checked_div_zero.
Qed.

(** C8: the flag of each point is true exactly when the third coordinate of
    its projected row, which the divide leaves untouched, is strictly
    positive; with the identity pose and intrinsics whose third row is
    (0, 0, 1) that coordinate is the point's Z, so (0, 0, 5) is flagged and
    (0, 0, -5) is not. *)
Theorem project_points_flags (points : list vec3) (P : mat4) (K : mat3) :
  length (snd (project_points points P K)) = length points
  /\ (forall i p, nth_error points i = Some p ->
        exists b, nth_error (snd (project_points points P K)) i = Some b
                  /\ (b = true <-> uz (proj_row P K p) > 0))
  /\ (m3_2 K = V3 0 0 1 ->
      (forall p, uz (proj_row eye4 K p) = uz p)
      /\ snd (project_points [V3 0 0 5; V3 0 0 (-5)] eye4 K) = [true; false]).
Proof.
  split; [| split].
  - unfold project_points. cbn [snd]. now rewrite !length_map.
  - intros i p Hp. unfold project_points. cbn [snd].
    rewrite map_map, nth_error_map, Hp. cbn [option_map].
    eexists. split; [reflexivity | apply Rgtb_true].
  - intros HK. split; [intros p; now apply proj_row_identity_depth |].
    unfold project_points. cbn [snd map].
    rewrite !proj_row_identity_depth by exact HK. cbn [uz]. unfold Rgtb.
    destruct (Rgt_dec 5 0) as [_ | N]; [| lra].
    destruct (Rgt_dec (-5) 0) as [G | _]; [lra | reflexivity].
Qed.

Lemma project_points_flags_witness :
  (forall p, uz (proj_row eye4 eye3 p) = uz p)
  /\ snd (project_points [V3 0 0 5; V3 0 0 (-5)] eye4 eye3) = [true; false].
Proof.
  apply (proj2 (proj2 (project_points_flags
                         [V3 0 0 5; V3 0 0 (-5)] eye4 eye3))).
  reflexivity.
Defined.

(** C10: the perspective divide is unguarded: the pixel of a point is
    undefined (a division by zero) exactly when the third coordinate of its
    projected row is zero, and is the rounded and cast quotient pair
    otherwise. *)
Theorem project_points_unguarded_divide
    (points : list vec3) (P : mat4) (K : mat3) :
  length (fst (project_points points P K)) = length points
  /\ (forall i p, nth_error points i = Some p ->
        let r := proj_row P K p in
        (uz r = 0 ->
         nth_error (fst (project_points points P K)) i
         = Some (Fault DivisionByZero))
        /\ (uz r <> 0 ->
            nth_error (fst (project_points points P K)) i
            = Some (Value (astype_int (rint (ux r / uz r)),
                           astype_int (rint (uy r / uz r))))))
  /\ ((forall p, In p points -> uz (proj_row P K p) <> 0) <->
      (forall o, In o (fst (project_points points P K)) ->
         exists px, o = Value px)).
Proof.
  split; [| split].
  - unfold project_points. cbn [fst]. now rewrite !length_map.
  - intros i p Hp r. unfold project_points. cbn [fst].
    rewrite map_map, nth_error_map, Hp. cbn [option_map]. fold r. split.
    + intros Hz. now rewrite pixel_of_row_zero.
    + intros Hz. now rewrite pixel_of_row_nonzero.
  - unfold project_points. cbn [fst]. rewrite map_map. split.
    + intros Hall o Ho. apply in_map_iff in Ho. destruct Ho as (p & <- & Hp).
      rewrite pixel_of_row_nonzero by now apply Hall. eexists. reflexivity.
    + intros Hall p Hp Hz.
      destruct (Hall (pixel_of_row (proj_row P K p))) as [px Hpx].
      * apply in_map_iff. now exists p.
      * rewrite pixel_of_row_zero in Hpx by exact Hz. discriminate Hpx.
Qed.

Lemma project_points_unguarded_divide_witness :
  nth_error (fst (project_points [V3 0 0 0] eye4 eye3)) 0
  = Some (Fault DivisionByZero).
Proof.
  apply (proj1 (proj2 (project_points_unguarded_divide [V3 0 0 0] eye4 eye3))
           0%nat (V3 0 0 0) eq_refl).
  unfold proj_row, homogeneous, eye4, eye3, dot4, dot3.
  cbn [ux uy uz vx vy vz vw m4_0 m4_1 m4_2 m3_0 m3_1 m3_2]. ring.
Defined.

(** * Further properties of the quaternion algebra *)

(** X1: [mult_quat] is associative and the identity rotation is neutral on
    both sides. *)
Theorem mult_quat_monoid (a b c : vec4) :
  mult_quat a (mult_quat b c) = mult_quat (mult_quat a b) c
  /\ mult_quat a quat_one = a
  /\ mult_quat quat_one a = a.
Proof.
  destruct a as [ax ay az aw], b as [bx by' bz bw], c as [cx cy cz cw].
  unfold mult_quat, quat_one. cbn [vx vy vz vw].
  repeat split; f_equal; ring.
Qed.

(** X2: the squared norm is multiplicative under [mult_quat], so the product
    of two unit quaternions is a unit quaternion. *)
Theorem mult_quat_norm (a b : vec4) :
  sum_sq4 (mult_quat a b) = sum_sq4 a * sum_sq4 b
  /\ (sum_sq4 a = 1 -> sum_sq4 b = 1 -> sum_sq4 (mult_quat a b) = 1).
Proof.
  split; [apply sum_sq4_mult_quat |].
  intros Ha Hb. rewrite sum_sq4_mult_quat, Ha, Hb. ring.
Qed.

Lemma mult_quat_norm_witness : sum_sq4 (mult_quat (V4 1 0 0 0) (V4 0 1 0 0)) = 1.
Proof.
  apply (proj2 (mult_quat_norm (V4 1 0 0 0) (V4 0 1 0 0)));
    unfold sum_sq4; cbn [vx vy vz vw]; ring.
Defined.

Lemma sum_sq4_nonzero (q : vec4) : q <> zero4 -> sum_sq4 q <> 0.
Proof. intros Hq Hs. apply Hq. now apply sum_sq4_zero. Qed.

Lemma mult_quat_inverse (q : vec4) :
  sum_sq4 q <> 0 ->
  mult_quat q (V4 (- vx q / sum_sq4 q) (- vy q / sum_sq4 q)
                  (- vz q / sum_sq4 q) (vw q / sum_sq4 q)) = quat_one
  /\ mult_quat (V4 (- vx q / sum_sq4 q) (- vy q / sum_sq4 q)
                   (- vz q / sum_sq4 q) (vw q / sum_sq4 q)) q = quat_one.
Proof.
  intros Hs. destruct q as [x y z w]. unfold sum_sq4 in *.
  cbn [vx vy vz vw] in *. unfold mult_quat, quat_one. cbn [vx vy vz vw].
  split; f_equal; field; exact Hs.
Qed.

(** X3: on a nonzero quaternion [inv_quat] returns a two-sided inverse for
    [mult_quat]. *)
Theorem inv_quat_is_inverse (q : vec4) :
  q <> zero4 ->
  exists qi, inv_quat q = Value qi
             /\ mult_quat q qi = quat_one /\ mult_quat qi q = quat_one.
Proof.
  intros Hq. pose proof (sum_sq4_nonzero q Hq) as Hs.
  eexists. split; [now apply inv_quat_nonzero |].
  now apply mult_quat_inverse.
Qed.

Lemma inv_quat_is_inverse_witness :
  exists qi, inv_quat (V4 1 2 3 4) = Value qi
             /\ mult_quat (V4 1 2 3 4) qi = quat_one
             /\ mult_quat qi (V4 1 2 3 4) = quat_one.
Proof.
  apply (inv_quat_is_inverse (V4 1 2 3 4)).
  unfold zero4. intros E. injection E as E. lra.
Defined.

Lemma sum_sq4_inverse (q : vec4) :
  sum_sq4 q <> 0 ->
  sum_sq4 (V4 (- vx q / sum_sq4 q) (- vy q / sum_sq4 q)
              (- vz q / sum_sq4 q) (vw q / sum_sq4 q)) = / sum_sq4 q.
Proof.
  intros Hs. unfold sum_sq4 at 1. cbn [vx vy vz vw].
  replace ((- vx q / sum_sq4 q) ^ 2 + (- vy q / sum_sq4 q) ^ 2
           + (- vz q / sum_sq4 q) ^ 2 + (vw q / sum_sq4 q) ^ 2)
    with ((vx q ^ 2 + vy q ^ 2 + vz q ^ 2 + vw q ^ 2)
          / (sum_sq4 q * sum_sq4 q)) by (field; exact Hs).
  fold (sum_sq4 q). field. exact Hs.
Qed.

(** X4: inverting twice returns the quaternion, for every nonzero
    quaternion. *)
Theorem inv_quat_involutive (q : vec4) :
  q <> zero4 -> (qi <- inv_quat q ;; inv_quat qi) = Value q.
Proof.
  intros Hq. pose proof (sum_sq4_nonzero q Hq) as Hs.
  rewrite inv_quat_nonzero by exact Hs. cbn [bind].
  assert (Hi := sum_sq4_inverse q Hs).
  rewrite inv_quat_nonzero
    by (rewrite Hi; now apply Rinv_neq_0_compat).
  rewrite Hi. cbn [vx vy vz vw]. destruct q as [x y z w].
  cbn [vx vy vz vw] in *. do 2 f_equal; field; exact Hs.
Qed.

Lemma inv_quat_involutive_witness :
  (qi <- inv_quat (V4 1 2 3 4) ;; inv_quat qi) = Value (V4 1 2 3 4).
Proof.
  apply (inv_quat_involutive (V4 1 2 3 4)).
  unfold zero4. intros E. injection E as E. lra.
Defined.

Lemma mult_quat_assoc (a b c : vec4) :
  mult_quat a (mult_quat b c) = mult_quat (mult_quat a b) c.
Proof.
  destruct a as [ax ay az aw], b as [bx by' bz bw], c as [cx cy cz cw].
  unfold mult_quat. cbn [vx vy vz vw]. f_equal; ring.
Qed.

Lemma mult_quat_one_r (q : vec4) : mult_quat q quat_one = q.
Proof. apply mult_quat_identity. Qed.

Lemma delta_quat_nonzero (q2 q1 : vec4) :
  sum_sq4 q1 <> 0 ->
  delta_quat q2 q1
  = Value (mult_quat q2 (V4 (- vx q1 / sum_sq4 q1) (- vy q1 / sum_sq4 q1)
                            (- vz q1 / sum_sq4 q1) (vw q1 / sum_sq4 q1))).
Proof.
  intros Hs. unfold delta_quat. now rewrite inv_quat_nonzero.
Qed.

Lemma delta_quat_then_mult (q2 q1 d : vec4) :
  sum_sq4 q1 <> 0 -> delta_quat q2 q1 = Value d -> mult_quat d q1 = q2.
Proof.
  intros Hs Hd. rewrite delta_quat_nonzero in Hd by exact Hs.
  injection Hd as <-. rewrite <- mult_quat_assoc.
  rewrite (proj2 (mult_quat_inverse q1 Hs)). apply mult_quat_one_r.
Qed.

(** X5: for a nonzero [q1], [delta_quat q2 q1] is defined and accumulating it
    onto [q1] yields [q2] (the docstring of [delta_quat]); on the zero
    quaternion, and only there, it is a division by zero. *)
Theorem delta_quat_accumulates (q2 q1 : vec4) :
  (q1 <> zero4 ->
   exists d, delta_quat q2 q1 = Value d /\ mult_quat d q1 = q2)
  /\ (delta_quat q2 q1 = Fault DivisionByZero <-> q1 = zero4).
Proof.
  split.
  - intros Hq. pose proof (sum_sq4_nonzero q1 Hq) as Hs.
    eexists. split; [now apply delta_quat_nonzero |].
    eapply delta_quat_then_mult; [exact Hs | now apply delta_quat_nonzero].
  - split.
    + intros Hf. apply sum_sq4_zero.
      destruct (Req_dec_T (sum_sq4 q1) 0) as [E | N]; [exact E |].
      rewrite delta_quat_nonzero in Hf by exact N. discriminate Hf.
    + intros ->. unfold delta_quat, inv_quat.
      replace (sum_sq4 zero4) with 0 by (unfold sum_sq4, zero4; simpl; ring).
      now rewrite div4_zero.
Qed.

Lemma delta_quat_accumulates_witness :
  exists d, delta_quat (V4 0 1 0 0) (V4 1 2 3 4) = Value d
            /\ mult_quat d (V4 1 2 3 4) = V4 0 1 0 0.
Proof.
  apply (proj1 (delta_quat_accumulates (V4 0 1 0 0) (V4 1 2 3 4))).
  unfold zero4. intros E. injection E as E. lra.
Defined.

(** X6: deltas chain: the delta from [q1] to [q2] followed by the delta from
    [q2] to [q3] is the delta from [q1] to [q3]. *)
Theorem delta_quat_chain (q3 q2 q1 d32 d21 : vec4) :
  q2 <> zero4 -> q1 <> zero4 ->
  delta_quat q3 q2 = Value d32 ->
  delta_quat q2 q1 = Value d21 ->
  delta_quat q3 q1 = Value (mult_quat d32 d21).
Proof.
  intros H2 H1 E32 E21.
  pose proof (sum_sq4_nonzero q2 H2) as S2.
  pose proof (sum_sq4_nonzero q1 H1) as S1.
  pose proof (delta_quat_then_mult q3 q2 d32 S2 E32) as A32.
  rewrite delta_quat_nonzero in E21 by exact S1. injection E21 as <-.
  rewrite delta_quat_nonzero by exact S1.
  now rewrite mult_quat_assoc, A32.
Qed.

Lemma delta_quat_chain_witness :
  delta_quat (V4 0 0 1 0) quat_one
  = Value (mult_quat (mult_quat (V4 0 0 1 0) (V4 0 (-1) 0 0))
                     (V4 0 1 0 0)).
Proof.
  assert (U : sum_sq4 (V4 0 1 0 0) = 1)
    by (unfold sum_sq4; cbn [vx vy vz vw]; ring).
  apply (delta_quat_chain (V4 0 0 1 0) (V4 0 1 0 0) quat_one).
  - unfold zero4. intros E. injection E as E. lra.
  - unfold zero4, quat_one. intros E. injection E as E. lra.
  - rewrite delta_quat_unit by exact U. cbn [vx vy vz vw].
    do 3 f_equal; ring.
  - apply delta_quat_identity.
Defined.

(** X7: the delta of a nonzero quaternion relative to itself is the identity
    rotation. *)
Theorem delta_quat_self (q : vec4) :
  q <> zero4 -> delta_quat q q = Value quat_one.
Proof.
  intros Hq. pose proof (sum_sq4_nonzero q Hq) as Hs.
  rewrite delta_quat_nonzero by exact Hs.
  now rewrite (proj1 (mult_quat_inverse q Hs)).
Qed.

Lemma delta_quat_self_witness :
  delta_quat (V4 1 2 3 4) (V4 1 2 3 4) = Value quat_one.
Proof.
  apply (delta_quat_self (V4 1 2 3 4)).
  unfold zero4. intros E. injection E as E. lra.
Defined.

(** * Further properties of the conversions *)

(** X8: [quat_from_rvec] is defined on every axis-angle vector and returns a
    unit quaternion whose scalar part is the cosine of half the norm. *)
Theorem quat_from_rvec_unit_quaternion (r : vec3) :
  exists q, quat_from_rvec r = Value q
            /\ sum_sq4 q = 1 /\ vw q = cos (norm3 r / 2).
Proof.
  destruct (quat_from_rvec_defined r) as [q Hq]. exists q.
  split; [exact Hq |]. split; [now apply (quat_from_rvec_unit r) |].
  unfold quat_from_rvec in Hq.
  destruct (Rgt_dec (norm3 r) 0) as [G | NG].
  - rewrite div3_nonzero in Hq by lra. cbn [bind] in Hq.
    now injection Hq as <-.
  - injection Hq as <-. cbn [vw].
    pose proof (norm3_nonneg r).
    replace (norm3 r) with 0 by lra.
    replace (0 / 2) with 0 by field. symmetry. apply cos_0.
Qed.

Lemma norm3_neg3 (r : vec3) : norm3 (neg3 r) = norm3 r.
Proof.
  unfold norm3. f_equal. unfold sum_sq3, neg3. cbn [ux uy uz]. ring.
Qed.

(** X9: the inverse of the quaternion of [r] is the quaternion of the
    opposite axis-angle vector. *)
Theorem inv_quat_of_rvec (r : vec3) :
  (q <- quat_from_rvec r ;; inv_quat q) = quat_from_rvec (neg3 r).
Proof.
  destruct (quat_from_rvec_defined r) as [q Hq].
  pose proof (quat_from_rvec_unit r q Hq) as Hu.
  rewrite Hq. cbn [bind]. rewrite inv_quat_unit by exact Hu.
  unfold quat_from_rvec in *. rewrite norm3_neg3.
  destruct (Rgt_dec (norm3 r) 0) as [G | NG].
  - rewrite div3_nonzero in * by lra. cbn [bind] in *.
    injection Hq as <-. unfold scale3, neg3. cbn [ux uy uz vx vy vz vw].
    do 2 f_equal; field; lra.
  - injection Hq as <-. cbn [vx vy vz vw]. do 2 f_equal; ring.
Qed.

Lemma norm4_ge_w (q : vec4) : 0 <= vw q -> vw q <= norm4 q.
Proof.
  intros Hw. unfold norm4.
  rewrite <- (sqrt_pow2 (vw q)) at 1 by exact Hw.
  apply sqrt_le_1; [apply pow2_ge_0 | apply sum_sq4_nonneg |].
  unfold sum_sq4.
  pose proof (pow2_ge_0 (vx q)). pose proof (pow2_ge_0 (vy q)).
  pose proof (pow2_ge_0 (vz q)). lra.
Qed.

Lemma rvec_of_buffer_defined (q : vec4) :
  -1 <= vw q <= 1 -> exists r, rvec_of_buffer q = Value r.
Proof.
  intros Hw. rewrite rvec_of_buffer_in_range by exact Hw. cbv zeta.
  destruct (Rlt_dec (sqrt (1 - vw q ^ 2)) (1 / 1000));
    eexists; reflexivity.
Qed.

(** X10: the only fault of [rvec_from_quat] is the domain error of [acos] on
    a scalar part below -1, which the [w > 1] guard does not cover; on every
    other quaternion, normalised or not, it returns a vector. *)
Theorem rvec_from_quat_faults (q : vec4) :
  (vw q < -1 -> rvec_from_quat q = Fault MathDomain)
  /\ (-1 <= vw q -> exists r, rvec_from_quat q = Value r).
Proof.
  split.
  - intros Hw. unfold rvec_from_quat.
    rewrite rvec_from_quat_run_small by lra. cbn [snd].
    unfold rvec_of_buffer, checked_acos.
    destruct (Rlt_dec (vw q) (-1)) as [_ | N]; [reflexivity | lra].
  - intros Hw. unfold rvec_from_quat.
    destruct (Rgt_dec (vw q) 1) as [G | NG].
    + pose proof (norm4_pos_of_w q G) as Hn.
      pose proof (norm4_ge_w q) as Hge.
      unfold rvec_from_quat_run.
      destruct (Rgt_dec (vw q) 1) as [_ | N]; [| lra].
      rewrite div4_nonzero by lra. cbn [snd].
      apply rvec_of_buffer_defined. cbn [vw]. split.
      * assert (0 < vw q / norm4 q) by (apply Rdiv_lt_0_compat; lra). lra.
      * apply Rmult_le_reg_r with (norm4 q); [lra |].
        replace (vw q / norm4 q * norm4 q) with (vw q) by (field; lra).
        lra.
    + rewrite rvec_from_quat_run_small by lra. cbn [snd].
      apply rvec_of_buffer_defined. lra.
Qed.

Lemma rvec_from_quat_faults_witness :
  rvec_from_quat (V4 0 0 0 (-2)) = Fault MathDomain.
Proof.
  apply (proj1 (rvec_from_quat_faults (V4 0 0 0 (-2)))). cbn [vw]. lra.
Defined.

Lemma unit_quat_w_range (q : vec4) : sum_sq4 q = 1 -> -1 <= vw q <= 1.
Proof.
  unfold sum_sq4. intros Hu.
  pose proof (pow2_ge_0 (vx q)). pose proof (pow2_ge_0 (vy q)).
  pose proof (pow2_ge_0 (vz q)). nra.
Qed.

(** X11: on a unit quaternion the returned axis-angle vector has norm
    [2 acos w], the rotation angle, which lies between 0 and 2 pi; this
    holds in the singularity band as well. *)
Theorem rvec_from_quat_norm (q : vec4) :
  sum_sq4 q = 1 ->
  exists r, rvec_from_quat q = Value r
            /\ norm3 r = 2 * acos (vw q) /\ 0 <= norm3 r <= 2 * PI.
Proof.
  intros Hu. pose proof (unit_quat_w_range q Hu) as Hw.
  pose proof (acos_bound (vw q)) as Ha.
  rewrite rvec_from_quat_in_range by exact Hw. cbv zeta.
  set (s := sqrt (1 - vw q ^ 2)).
  destruct (Rlt_dec s (1 / 1000)) as [L | NL].
  - eexists. split; [reflexivity |].
    rewrite norm3_scale3_unit
      by (try lra; unfold sum_sq3; cbn [ux uy uz]; ring).
    split; lra.
  - eexists. split; [reflexivity |].
    assert (Hpos : 0 <= 1 - vw q ^ 2) by nra.
    assert (Hss : s * s = 1 - vw q ^ 2) by (apply sqrt_sqrt; exact Hpos).
    rewrite norm3_scale3_unit; [split; lra | | lra].
    unfold sum_sq3. cbn [ux uy uz]. unfold sum_sq4 in Hu.
    replace ((vx q / s) ^ 2 + (vy q / s) ^ 2 + (vz q / s) ^ 2)
      with ((vx q ^ 2 + vy q ^ 2 + vz q ^ 2) / (s * s)) by (field; lra).
    rewrite Hss.
    replace (vx q ^ 2 + vy q ^ 2 + vz q ^ 2) with (1 - vw q ^ 2) by lra.
    field. nra.
Qed.

Lemma rvec_from_quat_norm_witness :
  exists r, rvec_from_quat (V4 0 1 0 0) = Value r
            /\ norm3 r = 2 * acos (vw (V4 0 1 0 0))
            /\ 0 <= norm3 r <= 2 * PI.
Proof.
  apply (rvec_from_quat_norm (V4 0 1 0 0)).
  unfold sum_sq4. cbn [vx vy vz vw]. ring.
Defined.

Lemma rvec_from_quat_one : rvec_from_quat quat_one = Value zero3.
Proof.
  unfold quat_one. rewrite rvec_from_quat_in_range by (cbn [vw]; lra).
  cbn [vw vx vy vz]. cbv zeta.
  replace (1 - 1 ^ 2) with 0 by ring. rewrite sqrt_0, acos_1.
  destruct (Rlt_dec 0 (1 / 1000)) as [_ | N]; [| lra].
  unfold scale3, zero3. cbn [ux uy uz]. do 2 f_equal; ring.
Qed.

Lemma round_trip_in_range (r : vec3) :
  0 < norm3 r < 2 * PI -> 1 / 1000 <= sin (norm3 r / 2) ->
  (q <- quat_from_rvec r ;; rvec_from_quat q) = Value r.
Proof.
  intros Hn Hs. rewrite round_trip_unfold by lra. cbv zeta.
  rewrite Rabs_pos_eq by lra.
  destruct (Rlt_dec (sin (norm3 r / 2)) (1 / 1000)) as [L | _]; [lra |].
  rewrite acos_cos by lra.
  destruct r as [a b c]. unfold scale3. cbn [ux uy uz].
  set (n := norm3 (V3 a b c)) in *.
  do 2 f_equal; field; lra.
Qed.

Lemma mult_quat_one_l (q : vec4) : mult_quat quat_one q = q.
Proof.
  destruct q as [a b c d]. unfold mult_quat, quat_one. cbn [vx vy vz vw].
  f_equal; ring.
Qed.

(** X14: away from the singularities ([0 < norm r < 2 pi] and
    [sin (norm r / 2) >= 1e-3]) the delta of [r] relative to the zero
    rotation is [r], and the delta of the zero rotation relative to [r] is
    the opposite vector. *)
Theorem delta_rvec_zero (r : vec3) :
  0 < norm3 r < 2 * PI -> 1 / 1000 <= sin (norm3 r / 2) ->
  delta_rvec r zero3 = Value r /\ delta_rvec zero3 r = Value (neg3 r).
Proof.
  intros Hn Hs. split.
  - pose proof (round_trip_in_range r Hn Hs) as Hrt.
    unfold delta_rvec. rewrite quat_from_rvec_zero.
    destruct (quat_from_rvec r) as [q | f]; cbn [bind] in *;
      [| discriminate].
    now rewrite delta_quat_identity.
  - assert (Hrt : (q <- quat_from_rvec (neg3 r) ;; rvec_from_quat q)
                  = Value (neg3 r))
      by (apply round_trip_in_range; rewrite norm3_neg3; assumption).
    destruct (quat_from_rvec_defined r) as [q Hq].
    pose proof (quat_from_rvec_unit r q Hq) as Hu.
    assert (Hneg : quat_from_rvec (neg3 r) = Value (conj4 q)).
    { unfold quat_from_rvec in *. rewrite norm3_neg3.
      destruct (Rgt_dec (norm3 r) 0) as [_ | N]; [| lra].
      rewrite div3_nonzero in * by lra. cbn [bind] in *.
      injection Hq as <-. unfold scale3, neg3, conj4.
      cbn [ux uy uz vx vy vz vw]. do 2 f_equal; field; lra. }
    rewrite Hneg in Hrt. cbn [bind] in Hrt.
    unfold delta_rvec. rewrite quat_from_rvec_zero, Hq. cbn [bind].
    rewrite delta_quat_unit by exact Hu. cbn [bind].
    fold (conj4 q). fold quat_one. now rewrite mult_quat_one_l.
Qed.

Lemma delta_rvec_zero_witness :
  delta_rvec (V3 PI 0 0) zero3 = Value (V3 PI 0 0)
  /\ delta_rvec zero3 (V3 PI 0 0) = Value (neg3 (V3 PI 0 0)).
Proof.
  pose proof PI_RGT_0 as Hpi.
  assert (Hn : norm3 (V3 PI 0 0) = PI).
  { rewrite norm3_x_axis. apply Rabs_pos_eq. lra. }
  apply (delta_rvec_zero (V3 PI 0 0)).
  - rewrite Hn. lra.
  - rewrite Hn, sin_PI2. lra.
Defined.

Lemma argmax_abs_neg3 (r : vec3) : argmax_abs (neg3 r) = argmax_abs r.
Proof.
  unfold argmax_abs, neg3. cbn [ux uy uz]. now rewrite !Rabs_Ropp.
Qed.

Lemma component_neg3 (r : vec3) (i : nat) :
  component (neg3 r) i = - component r i.
Proof. destruct i as [| [| i]]; reflexivity. Qed.

Lemma np_sign_opp (a : R) : np_sign (- a) = - np_sign a.
Proof.
  destruct (Req_dec_T a 0) as [-> | Na].
  - rewrite Ropp_0, np_sign_zero. ring.
  - destruct (np_sign_cases a Na) as [[Hp E] | [Hn E]]; rewrite E;
      destruct (np_sign_cases (- a)) as [[Hp' E'] | [Hn' E']];
      try lra; rewrite E'; ring.
Qed.

(** X15: [axis_and_angle_from_rvec] canonicalises the sign: a vector and its
    opposite get the same axis and opposite angles. *)
Theorem axis_and_angle_opposite (r : vec3) :
  fst (axis_and_angle_from_rvec (neg3 r)) = fst (axis_and_angle_from_rvec r)
  /\ snd (axis_and_angle_from_rvec (neg3 r))
     = - snd (axis_and_angle_from_rvec r).
Proof.
  split.
  - unfold axis_and_angle_from_rvec. cbn [fst].
    rewrite norm3_neg3, argmax_abs_neg3, component_neg3, np_sign_opp.
    replace (scale3 (neg3 r) (- np_sign (component r (argmax_abs r))))
      with (scale3 r (np_sign (component r (argmax_abs r))));
      [reflexivity |].
    unfold scale3, neg3. cbn [ux uy uz]. f_equal; ring.
  - rewrite !angle_of_rvec. cbv zeta.
    rewrite norm3_neg3, argmax_abs_neg3, component_neg3, np_sign_opp.
    set (a := norm3 r * np_sign (component r (argmax_abs r))).
    replace (norm3 r * - np_sign (component r (argmax_abs r))) with (- a)
      by (unfold a; ring).
    rewrite Rabs_Ropp, np_sign_opp.
    destruct (Rgt_dec (Rabs a) PI); ring.
Qed.

(** X16: the returned axis scaled by the returned angle gives the input
    back when its norm is at most pi, and the input shortened by one turn
    ([1 - 2 pi / norm]) when the norm exceeds pi. *)
Theorem axis_times_angle (r : vec3) :
  r <> zero3 ->
  exists axis,
    fst (axis_and_angle_from_rvec r) = Value axis
    /\ (norm3 r <= PI ->
        scale3 axis (snd (axis_and_angle_from_rvec r)) = r)
    /\ (PI < norm3 r ->
        scale3 axis (snd (axis_and_angle_from_rvec r))
        = scale3 r (1 - 2 * PI / norm3 r)).
Proof.
  intros Hr. pose proof (norm3_pos r Hr) as Hn.
  set (m := component r (argmax_abs r)).
  assert (Hm : m <> 0) by now apply dominant_nonzero.
  assert (Hsq : np_sign m * np_sign m = 1).
  { destruct (np_sign_cases m Hm) as [[_ E] | [_ E]]; rewrite E; ring. }
  assert (Ha : Rabs (norm3 r * np_sign m) = norm3 r).
  { destruct (np_sign_cases m Hm) as [[_ E] | [_ E]]; rewrite E.
    - rewrite Rmult_1_r. apply Rabs_pos_eq. lra.
    - replace (norm3 r * -1) with (- norm3 r) by ring.
      rewrite Rabs_Ropp. apply Rabs_pos_eq. lra. }
  assert (Hss : np_sign (norm3 r * np_sign m) = np_sign m).
  { destruct (np_sign_cases m Hm) as [[_ E] | [_ E]]; rewrite E.
    - destruct (np_sign_cases (norm3 r * 1)) as [[_ F] | [L _]]; lra.
    - destruct (np_sign_cases (norm3 r * -1)) as [[L _] | [_ F]]; lra. }
  eexists. split; [now apply axis_of_nonzero |].
  fold m. rewrite angle_of_rvec. fold m. cbv zeta. rewrite Ha, Hss.
  destruct r as [a b c]. set (n := norm3 (V3 a b c)) in *.
  unfold scale3. cbn [ux uy uz]. split; intros Hb.
  - destruct (Rgt_dec n PI) as [G | _]; [lra |].
    f_equal.
    + replace (a * (np_sign m / n) * (n * np_sign m))
        with (a * (np_sign m * np_sign m)) by (field; lra).
      rewrite Hsq. ring.
    + replace (b * (np_sign m / n) * (n * np_sign m))
        with (b * (np_sign m * np_sign m)) by (field; lra).
      rewrite Hsq. ring.
    + replace (c * (np_sign m / n) * (n * np_sign m))
        with (c * (np_sign m * np_sign m)) by (field; lra).
      rewrite Hsq. ring.
  - destruct (Rgt_dec n PI) as [_ | N]; [| lra].
    f_equal.
    + replace (a * (np_sign m / n) * (n * np_sign m - np_sign m * 2 * PI))
        with (a * (np_sign m * np_sign m) * (1 - 2 * PI / n))
        by (field; lra).
      rewrite Hsq. ring.
    + replace (b * (np_sign m / n) * (n * np_sign m - np_sign m * 2 * PI))
        with (b * (np_sign m * np_sign m) * (1 - 2 * PI / n))
        by (field; lra).
      rewrite Hsq. ring.
    + replace (c * (np_sign m / n) * (n * np_sign m - np_sign m * 2 * PI))
        with (c * (np_sign m * np_sign m) * (1 - 2 * PI / n))
        by (field; lra).
      rewrite Hsq. ring.
Qed.

Lemma axis_times_angle_witness :
  exists axis,
    fst (axis_and_angle_from_rvec (V3 0 (-2) 0)) = Value axis
    /\ (norm3 (V3 0 (-2) 0) <= PI ->
        scale3 axis (snd (axis_and_angle_from_rvec (V3 0 (-2) 0)))
        = V3 0 (-2) 0)
    /\ (PI < norm3 (V3 0 (-2) 0) ->
        scale3 axis (snd (axis_and_angle_from_rvec (V3 0 (-2) 0)))
        = scale3 (V3 0 (-2) 0) (1 - 2 * PI / norm3 (V3 0 (-2) 0))).
Proof.
  apply (axis_times_angle (V3 0 (-2) 0)).
  unfold zero3. intros E. injection E as E. lra.
Defined.

(** * Further properties of the pose matrices *)

Ltac unfold_mat3 :=
  unfold mmul3, transpose3, mat3_vec, dot3, eye3, neg3, add3;
  cbn [ux uy uz m3_0 m3_1 m3_2].

Lemma mmul3_assoc (A B C : mat3) :
  mmul3 (mmul3 A B) C = mmul3 A (mmul3 B C).
Proof.
  destruct A as [[] [] []], B as [[] [] []], C as [[] [] []].
  unfold_mat3. f_equal; f_equal; ring.
Qed.

Lemma mmul3_eye3_l (A : mat3) : mmul3 eye3 A = A.
Proof. destruct A as [[] [] []]. unfold_mat3. f_equal; f_equal; ring. Qed.

Lemma mmul3_eye3_r (A : mat3) : mmul3 A eye3 = A.
Proof. destruct A as [[] [] []]. unfold_mat3. f_equal; f_equal; ring. Qed.

Lemma det3_mmul3 (A B : mat3) : det3 (mmul3 A B) = det3 A * det3 B.
Proof.
  destruct A as [[] [] []], B as [[] [] []].
  unfold_mat3. unfold det3, det2. cbn [ux uy uz]. ring.
Qed.

Lemma det3_eye3 : det3 eye3 = 1.
Proof. unfold det3, det2, eye3. cbn [ux uy uz]. ring. Qed.

Lemma det3_transpose3 (A : mat3) : det3 (transpose3 A) = det3 A.
Proof.
  destruct A as [[] [] []]. unfold transpose3, det3, det2.
  cbn [ux uy uz m3_0 m3_1 m3_2]. ring.
Qed.

Lemma mat3_vec_mmul3 (A B : mat3) (v : vec3) :
  mat3_vec (mmul3 A B) v = mat3_vec A (mat3_vec B v).
Proof.
  destruct A as [[] [] []], B as [[] [] []], v.
  unfold_mat3. f_equal; ring.
Qed.

Lemma mat3_vec_eye3 (v : vec3) : mat3_vec eye3 v = v.
Proof. destruct v. unfold_mat3. f_equal; ring. Qed.

Lemma mat3_vec_neg3 (A : mat3) (v : vec3) :
  mat3_vec A (neg3 v) = neg3 (mat3_vec A v).
Proof. destruct A as [[] [] []], v. unfold_mat3. f_equal; ring. Qed.

Ltac adjugate3_entry M d Ed Hd :=
  match goal with
  | |- _ = 1 =>
      transitivity (det3 M * / d);
      [ unfold det3, det2; cbn [ux uy uz]; ring
      | rewrite <- Ed; field; exact Hd ]
  | |- _ = 0 =>
      transitivity (0 * / d);
      [ unfold det3, det2; cbn [ux uy uz]; ring | ring ]
  end.

Lemma adjugate_over_det3_r (A : mat3) :
  det3 A <> 0 -> mmul3 A (adjugate_over_det3 A) = eye3.
Proof.
  intros Hd. destruct A as [[] [] []].
  match type of Hd with det3 ?M <> 0 =>
    remember (det3 M) as d eqn:Ed;
    unfold adjugate_over_det3; rewrite <- Ed; unfold_mat3; unfold Rdiv;
    f_equal; f_equal; adjugate3_entry M d Ed Hd
  end.
Qed.

Lemma adjugate_over_det3_l (A : mat3) :
  det3 A <> 0 -> mmul3 (adjugate_over_det3 A) A = eye3.
Proof.
  intros Hd. destruct A as [[] [] []].
  match type of Hd with det3 ?M <> 0 =>
    remember (det3 M) as d eqn:Ed;
    unfold adjugate_over_det3; rewrite <- Ed; unfold_mat3; unfold Rdiv;
    f_equal; f_equal; adjugate3_entry M d Ed Hd
  end.
Qed.

Lemma inverse3_unique (A B : mat3) :
  det3 A <> 0 -> mmul3 B A = eye3 -> B = adjugate_over_det3 A.
Proof.
  intros Hd HB.
  rewrite <- (mmul3_eye3_l (adjugate_over_det3 A)), <- HB, mmul3_assoc.
  now rewrite adjugate_over_det3_r, mmul3_eye3_r.
Qed.

Lemma pose_product (R1 R2 : mat3) (t1 t2 : vec3) :
  mmul4 (P_from_R_and_t R1 t1) (P_from_R_and_t R2 t2)
  = P_from_R_and_t (mmul3 R1 R2) (add3 (mat3_vec R1 t2) t1).
Proof.
  destruct R1 as [[] [] []], R2 as [[] [] []], t1, t2.
  unfold P_from_R_and_t, set_translation, set_rotation.
  unfold_mat4. unfold_mat3. f_equal; f_equal; ring.
Qed.

Lemma pose_decompose (P : mat4) :
  is_pose P -> P = P_from_R_and_t (rotation_block P) (translation_block P).
Proof.
  unfold is_pose. destruct P as [[] [] [] p3]. cbn [m4_3]. intros ->.
  reflexivity.
Qed.

Lemma pose_eye : P_from_R_and_t eye3 zero3 = eye4.
Proof. reflexivity. Qed.

(** X17: poses compose as rigid motions: the product of the pose of
    [(R1, t1)] with the pose of [(R2, t2)] is the pose of
    [(R1 . R2, R1 . t2 + t1)], and [P_from_R_and_t] is read back by the two
    blocks. *)
Theorem P_from_R_and_t_compose (R1 R2 : mat3) (t1 t2 : vec3) :
  mmul4 (P_from_R_and_t R1 t1) (P_from_R_and_t R2 t2)
  = P_from_R_and_t (mmul3 R1 R2) (add3 (mat3_vec R1 t2) t1)
  /\ rotation_block (P_from_R_and_t R1 t1) = R1
  /\ translation_block (P_from_R_and_t R1 t1) = t1.
Proof.
  split; [apply pose_product |].
  destruct R1 as [[] [] []], t1. split; reflexivity.
Qed.

Lemma P_inv_value (P : mat4) :
  det3 (rotation_block P) <> 0 ->
  P_inv P
  = Value (P_from_R_and_t
             (adjugate_over_det3 (rotation_block P))
             (neg3 (mat3_vec (adjugate_over_det3 (rotation_block P))
                             (translation_block P)))).
Proof.
  intros Hd. unfold P_inv, LA_inv.
  destruct (Req_dec_T (det3 (rotation_block P)) 0) as [E | _];
    [contradiction | reflexivity].
Qed.

Lemma add3_neg3_cancel (v : vec3) : add3 (neg3 v) v = zero3.
Proof. destruct v. unfold add3, neg3, zero3. cbn [ux uy uz]. f_equal; ring. Qed.

Lemma add3_neg3_cancel_r (v : vec3) : add3 v (neg3 v) = zero3.
Proof. destruct v. unfold add3, neg3, zero3. cbn [ux uy uz]. f_equal; ring. Qed.

Lemma P_inv_products (P : mat4) :
  is_pose P -> det3 (rotation_block P) <> 0 ->
  let Q := P_from_R_and_t
             (adjugate_over_det3 (rotation_block P))
             (neg3 (mat3_vec (adjugate_over_det3 (rotation_block P))
                             (translation_block P))) in
  mmul4 P Q = eye4 /\ mmul4 Q P = eye4.
Proof.
  intros HP Hd Q. unfold Q. clear Q.
  pose proof (pose_decompose P HP) as HPd.
  set (R := rotation_block P) in *. set (t := translation_block P) in *.
  rewrite HPd, !pose_product. split.
  - rewrite adjugate_over_det3_r by exact Hd.
    rewrite mat3_vec_neg3, <- mat3_vec_mmul3.
    rewrite adjugate_over_det3_r by exact Hd.
    now rewrite mat3_vec_eye3, add3_neg3_cancel.
  - rewrite adjugate_over_det3_l by exact Hd.
    now rewrite add3_neg3_cancel_r.
Qed.

(** X18: on a pose with an invertible rotation block [P_inv] returns a
    two-sided inverse for the matrix product. *)
Theorem P_inv_is_inverse (P : mat4) :
  is_pose P -> det3 (rotation_block P) <> 0 ->
  exists Q, P_inv P = Value Q /\ mmul4 P Q = eye4 /\ mmul4 Q P = eye4.
Proof.
  intros HP Hd. eexists. split; [now apply P_inv_value |].
  now apply P_inv_products.
Qed.

Lemma P_inv_is_inverse_witness :
  exists Q, P_inv pose_turn_z = Value Q
            /\ mmul4 pose_turn_z Q = eye4 /\ mmul4 Q pose_turn_z = eye4.
Proof.
  apply (P_inv_is_inverse pose_turn_z).
  - reflexivity.
  - unfold det3, det2, rotation_block, pose_turn_z.
    cbn [ux uy uz vx vy vz vw m4_0 m4_1 m4_2]. lra.
Defined.

Lemma blocks_of_P_from_R_and_t (R : mat3) (t : vec3) :
  rotation_block (P_from_R_and_t R t) = R
  /\ translation_block (P_from_R_and_t R t) = t.
Proof. destruct R as [[] [] []], t. split; reflexivity. Qed.

Lemma neg3_involutive (v : vec3) : neg3 (neg3 v) = v.
Proof. destruct v. unfold neg3. cbn [ux uy uz]. f_equal; ring. Qed.

Lemma det3_inverse_nonzero (A : mat3) :
  det3 A <> 0 -> det3 (adjugate_over_det3 A) <> 0.
Proof.
  intros Hd Hz.
  pose proof (det3_mmul3 A (adjugate_over_det3 A)) as H.
  rewrite adjugate_over_det3_r, det3_eye3, Hz in H by exact Hd. lra.
Qed.

(** X20: inverting a pose twice returns the pose. *)
Theorem P_inv_involutive (P : mat4) :
  is_pose P -> det3 (rotation_block P) <> 0 ->
  (Q <- P_inv P ;; P_inv Q) = Value P.
Proof.
  intros HP Hd. rewrite P_inv_value by exact Hd. cbn [bind].
  pose proof (pose_decompose P HP) as HPd.
  set (R := rotation_block P) in *. set (t := translation_block P) in *.
  set (R' := adjugate_over_det3 R).
  assert (Hd' : det3 R' <> 0) by now apply det3_inverse_nonzero.
  destruct (blocks_of_P_from_R_and_t R' (neg3 (mat3_vec R' t))) as [HR Ht].
  rewrite P_inv_value by (rewrite HR; exact Hd').
  rewrite HR, Ht.
  assert (HRR : adjugate_over_det3 R' = R).
  { symmetry. apply inverse3_unique; [exact Hd' |].
    now apply adjugate_over_det3_r. }
  rewrite HRR, mat3_vec_neg3, neg3_involutive, <- mat3_vec_mmul3.
  unfold R'. rewrite adjugate_over_det3_r by exact Hd.
  now rewrite mat3_vec_eye3, <- HPd.
Qed.

Lemma P_inv_involutive_witness :
  (Q <- P_inv pose_shift_x ;; P_inv Q) = Value pose_shift_x.
Proof.
  apply (P_inv_involutive pose_shift_x).
  - reflexivity.
  - unfold det3, det2, rotation_block, pose_shift_x.
    cbn [ux uy uz vx vy vz vw m4_0 m4_1 m4_2]. lra.
Defined.

Lemma det4_pose (P : mat4) :
  is_pose P -> det4 P = det3 (rotation_block P).
Proof.
  unfold is_pose. destruct P as [[] [] [] p3]. cbn [m4_3]. intros ->.
  unfold det4, cofactor, minor, drop_col, det3, det2, rotation_block.
  simpl. ring.
Qed.

Lemma inverse4_unique (Q P : mat4) :
  det4 P <> 0 -> mmul4 Q P = eye4 -> Q = adjugate_over_det4 P.
Proof.
  intros Hd HQ. rewrite <- (mmul4_eye4_l (adjugate_over_det4 P)).
  now apply solution_unique.
Qed.

(** X21: the relative pose is the product with the inverse pose:
    [delta_P(P2, P1) = P2 . P_inv(P1)] for poses with [P1] invertible. *)
Theorem delta_P_by_P_inv (lstsq : mat4 -> mat4 -> mat4) (P2 P1 : mat4) :
  is_pose P1 -> is_pose P2 -> det3 (rotation_block P1) <> 0 ->
  exists Q, P_inv P1 = Value Q /\ delta_P lstsq P2 P1 = mmul4 P2 Q.
Proof.
  intros H1 H2 Hd.
  assert (Hd4 : det4 P1 <> 0) by now rewrite det4_pose.
  eexists. split; [now apply P_inv_value |].
  rewrite (delta_P_closed_form lstsq P2 P1 H1 H2 Hd4). f_equal.
  symmetry. apply inverse4_unique; [exact Hd4 |].
  now apply P_inv_products.
Qed.

Lemma delta_P_by_P_inv_witness :
  exists Q, P_inv pose_shift_x = Value Q
            /\ delta_P (fun _ B => B) pose_turn_z pose_shift_x
               = mmul4 pose_turn_z Q.
Proof.
  apply (delta_P_by_P_inv (fun _ B => B) pose_turn_z pose_shift_x).
  - reflexivity.
  - reflexivity.
  - unfold det3, det2, rotation_block, pose_shift_x.
    cbn [ux uy uz vx vy vz vw m4_0 m4_1 m4_2]. lra.
Defined.

Lemma det4_eye4 : det4 eye4 <> 0.
Proof.
  unfold det4, cofactor, minor, drop_col, det3, det2, eye4. simpl. lra.
Qed.

(** X22: the pose of an invertible pose relative to itself is the identity,
    and its pose relative to the identity is the pose itself. *)
Theorem delta_P_identities (lstsq : mat4 -> mat4 -> mat4) (P : mat4) :
  is_pose P -> det4 P <> 0 ->
  delta_P lstsq P P = eye4 /\ delta_P lstsq P eye4 = P.
Proof.
  intros HP Hd. split.
  - rewrite (delta_P_closed_form lstsq P P HP HP Hd).
    symmetry. apply solution_unique; [exact Hd | apply mmul4_eye4_l].
  - rewrite (delta_P_closed_form lstsq P eye4 eq_refl HP det4_eye4).
    symmetry. apply solution_unique; [apply det4_eye4 | apply mmul4_eye4_r].
Qed.

Lemma delta_P_identities_witness :
  delta_P (fun _ B => B) pose_shift_x pose_shift_x = eye4
  /\ delta_P (fun _ B => B) pose_shift_x eye4 = pose_shift_x.
Proof.
  apply (delta_P_identities (fun _ B => B) pose_shift_x).
  - reflexivity.
  - apply det4_pose_shift_x.
Defined.

(** X23: relative poses chain: the pose of [P2] relative to [P1] followed by
    the pose of [P3] relative to [P2] is the pose of [P3] relative to
    [P1]. *)
Theorem delta_P_chain (lstsq : mat4 -> mat4 -> mat4) (P3 P2 P1 : mat4) :
  is_pose P1 -> is_pose P2 -> is_pose P3 ->
  det4 P1 <> 0 -> det4 P2 <> 0 ->
  mmul4 (delta_P lstsq P3 P2) (delta_P lstsq P2 P1) = delta_P lstsq P3 P1.
Proof.
  intros H1 H2 H3 D1 D2.
  rewrite (delta_P_closed_form lstsq P3 P1 H1 H3 D1).
  apply solution_unique; [exact D1 |].
  rewrite mmul4_assoc.
  rewrite (delta_P_times_P1 lstsq P2 P1 H1 H2 D1).
  now apply delta_P_times_P1.
Qed.

Lemma delta_P_chain_witness :
  mmul4 (delta_P (fun _ B => B) eye4 pose_turn_z)
        (delta_P (fun _ B => B) pose_turn_z pose_shift_x)
  = delta_P (fun _ B => B) eye4 pose_shift_x.
Proof.
  apply (delta_P_chain (fun _ B => B) eye4 pose_turn_z pose_shift_x).
  - reflexivity.
  - reflexivity.
  - reflexivity.
  - apply det4_pose_shift_x.
  - unfold det4, cofactor, minor, drop_col, det3, det2, pose_turn_z.
    simpl. lra.
Defined.

(** X24: when the rotation block is orthonormal ([R . R^T = I]) the full
    inverse computed by [P_inv] coincides with the transpose shortcut: the
    result is the pose of [(R^T, - R^T . t)]. *)
Theorem P_inv_orthonormal (P : mat4) :
  mmul3 (rotation_block P) (transpose3 (rotation_block P)) = eye3 ->
  P_inv P
  = Value (P_from_R_and_t
             (transpose3 (rotation_block P))
             (neg3 (mat3_vec (transpose3 (rotation_block P))
                             (translation_block P)))).
Proof.
  intros Ho. set (R := rotation_block P) in *.
  assert (Hd : det3 R <> 0).
  { intros Hz. pose proof (det3_mmul3 R (transpose3 R)) as H.
    rewrite Ho, det3_eye3, Hz in H. lra. }
  assert (HR : adjugate_over_det3 R = transpose3 R).
  { rewrite <- (mmul3_eye3_r (adjugate_over_det3 R)), <- Ho.
    rewrite <- mmul3_assoc, adjugate_over_det3_l by exact Hd.
    apply mmul3_eye3_l. }
  rewrite P_inv_value by exact Hd. fold R. now rewrite HR.
Qed.

Lemma P_inv_orthonormal_witness :
  P_inv pose_turn_z
  = Value (P_from_R_and_t
             (transpose3 (rotation_block pose_turn_z))
             (neg3 (mat3_vec (transpose3 (rotation_block pose_turn_z))
                             (translation_block pose_turn_z)))).
Proof.
  apply (P_inv_orthonormal pose_turn_z).
  unfold rotation_block, pose_turn_z. unfold_mat3.
  cbn [vx vy vz vw m4_0 m4_1 m4_2 ux uy uz]. f_equal; f_equal; ring.
Defined.

(** * Further properties of the projection *)

Lemma depth_of_proj_row (P : mat4) (K : mat3) (p : vec3) :
  m3_2 K = V3 0 0 1 ->
  uz (proj_row P K p) = dot4 (homogeneous p) (m4_2 P).
Proof.
  intros HK. unfold proj_row. cbn [uz]. rewrite HK. unfold dot3.
  cbn [ux uy uz]. ring.
Qed.

(** X25: with intrinsics whose third row is (0, 0, 1) the in-front flags of
    [project_points] are the signs of the depths that [projection_depth]
    returns for the same points and pose. *)
Theorem flags_from_projection_depth
    (points : list vec3) (P : mat4) (K : mat3) :
  m3_2 K = V3 0 0 1 ->
  snd (project_points points P K)
  = map (fun d => Rgtb d 0) (projection_depth points P).
Proof.
  intros HK. unfold project_points, projection_depth. cbn [snd].
  rewrite !map_map. apply map_ext. intros p.
  now rewrite depth_of_proj_row.
Qed.

Lemma flags_from_projection_depth_witness :
  snd (project_points [V3 0 0 5; V3 1 2 (-5)] pose_shift_x eye3)
  = map (fun d => Rgtb d 0)
        (projection_depth [V3 0 0 5; V3 1 2 (-5)] pose_shift_x).
Proof.
  apply (flags_from_projection_depth
           [V3 0 0 5; V3 1 2 (-5)] pose_shift_x eye3).
  reflexivity.
Defined.

(** * Round trip through the quaternion, for every norm *)

Lemma norm3_y_axis (a : R) : norm3 (V3 0 a 0) = Rabs a.
Proof.
  unfold norm3, sum_sq3. cbn [ux uy uz].
  replace (0 ^ 2 + a ^ 2 + 0 ^ 2) with (Rsqr a) by (unfold Rsqr; ring).
  apply sqrt_Rsqr_abs.
Qed.

(** Inside the singularity band the returned vector is the wrapped angle
    about the x axis, whatever the axis of [r]. *)
Lemma round_trip_in_band (r : vec3) :
  Rabs (sin (norm3 r / 2)) < 1 / 1000 ->
  (q <- quat_from_rvec r ;; rvec_from_quat q)
  = Value (V3 (2 * acos (cos (norm3 r / 2))) 0 0).
Proof.
  intros Hs. destruct (norm3_nonneg r) as [Hp | Hz].
  - rewrite round_trip_unfold by exact Hp. cbv zeta.
    destruct (Rlt_dec (Rabs (sin (norm3 r / 2))) (1 / 1000)) as [_ | N];
      [| contradiction].
    unfold scale3. cbn [ux uy uz]. do 2 f_equal; ring.
  - assert (Hr : r = zero3) by (apply norm3_zero; lra).
    rewrite <- Hz, Hr, quat_from_rvec_zero. cbn [bind].
    fold quat_one. rewrite rvec_from_quat_one.
    replace (0 / 2) with 0 by field. rewrite cos_0, acos_1.
    unfold zero3. do 2 f_equal; ring.
Qed.

(** Outside the band the returned vector has the quaternion of [r]: it is
    the same rotation, whatever the norm of [r]. *)
Lemma round_trip_same_quat (r : vec3) :
  1 / 1000 <= Rabs (sin (norm3 r / 2)) ->
  exists r', (q <- quat_from_rvec r ;; rvec_from_quat q) = Value r'
             /\ quat_from_rvec r' = quat_from_rvec r.
Proof.
  intros Hs.
  assert (Hn : 0 < norm3 r).
  { destruct (norm3_nonneg r) as [Hp | Hz]; [exact Hp |].
    exfalso. rewrite <- Hz in Hs. replace (0 / 2) with 0 in Hs by field.
    rewrite sin_0, Rabs_R0 in Hs. lra. }
  pose proof (quat_from_rvec_nonzero r Hn) as Hq.
  pose proof (quat_from_rvec_unit r _ Hq) as Hu.
  rewrite Hq. cbn [bind].
  set (q := V4 (ux r * sin (norm3 r / 2) / norm3 r)
               (uy r * sin (norm3 r / 2) / norm3 r)
               (uz r * sin (norm3 r / 2) / norm3 r)
               (cos (norm3 r / 2))) in *.
  assert (Hband : 1 / 1000 <= sqrt (1 - vw q ^ 2)).
  { unfold q. cbn [vw]. now rewrite sqrt_one_minus_cos2. }
  pose proof (quat_of_rvec_of_unit_quat q Hu Hband) as Hback.
  destruct (rvec_from_quat q) as [r' | f]; cbn [bind] in Hback;
    [| discriminate].
  exists r'. split; [reflexivity | exact Hback].
Qed.

(** C5, as stated, fails outside its range: for the rotation by 1/2000 about
    the y axis, inside the singularity band, the round trip returns the
    rotation by 1/2000 about the x axis, which is no multiple of the input
    and has neither its quaternion nor the opposite one. *)
Lemma round_trip_band_loses_axis :
  ~ (1 / 1000 <= sin (norm3 (V3 0 (1 / 2000) 0) / 2))
  /\ (q <- quat_from_rvec (V3 0 (1 / 2000) 0) ;; rvec_from_quat q)
     = Value (V3 (1 / 2000) 0 0)
  /\ (forall k, V3 (1 / 2000) 0 0 <> scale3 (V3 0 (1 / 2000) 0) k)
  /\ quat_from_rvec (V3 0 (1 / 2000) 0)
     = Value (V4 0 (sin (1 / 4000)) 0 (cos (1 / 4000)))
  /\ quat_from_rvec (V3 (1 / 2000) 0 0)
     = Value (V4 (sin (1 / 4000)) 0 0 (cos (1 / 4000)))
  /\ V4 (sin (1 / 4000)) 0 0 (cos (1 / 4000))
     <> V4 0 (sin (1 / 4000)) 0 (cos (1 / 4000))
  /\ V4 (sin (1 / 4000)) 0 0 (cos (1 / 4000))
     <> neg4 (V4 0 (sin (1 / 4000)) 0 (cos (1 / 4000))).
Proof.
  pose proof PI_RGT_0 as Hpi. pose proof PI2_3_2 as Hp2.
  assert (Hn : norm3 (V3 0 (1 / 2000) 0) / 2 = 1 / 4000).
  { rewrite norm3_y_axis, Rabs_pos_eq by lra. lra. }
  assert (Hsin : 0 < sin (1 / 4000)) by (apply sin_gt_0; lra).
  pose proof (sin_lt_x (1 / 4000)) as Hlt.
  split; [rewrite Hn; lra |]. split; [| split; [| split; [| split; [| split]]]].
  - rewrite round_trip_in_band
      by (rewrite Hn, Rabs_pos_eq by lra; lra).
    rewrite Hn, acos_cos by lra. do 2 f_equal. lra.
  - intros k E. unfold scale3 in E. cbn [ux uy uz] in E.
    injection E as E _ _. lra.
  - rewrite quat_from_rvec_y_axis by lra.
    replace (1 / 2000 / 2) with (1 / 4000) by lra. reflexivity.
  - rewrite quat_from_rvec_x_axis by lra.
    replace (1 / 2000 / 2) with (1 / 4000) by lra. reflexivity.
  - intros E. injection E as E _. lra.
  - unfold neg4. cbn [vx vy vz vw]. intros E. injection E as E _. lra.
Qed.

(** C5 (amended): the round trip through the quaternion returns [r] exactly
    when [0 < norm r < 2 pi] and [sin (norm r / 2) >= 1e-3].  For every
    norm, outside the singularity band ([|sin (norm r / 2)| >= 1e-3]) it
    returns a vector with the quaternion of [r] (for a norm between 2 pi
    and 4 pi: [r] with the angle wrapped by 2 pi and the axis reversed), and
    inside the band it returns the wrapped angle about the x axis. *)
Theorem quat_rvec_round_trip (r : vec3) :
  (0 < norm3 r < 2 * PI -> 1 / 1000 <= sin (norm3 r / 2) ->
   (q <- quat_from_rvec r ;; rvec_from_quat q) = Value r)
  /\ (1 / 1000 <= Rabs (sin (norm3 r / 2)) ->
      exists r', (q <- quat_from_rvec r ;; rvec_from_quat q) = Value r'
                 /\ quat_from_rvec r' = quat_from_rvec r)
  /\ (2 * PI < norm3 r < 4 * PI -> 1 / 1000 <= - sin (norm3 r / 2) ->
      (q <- quat_from_rvec r ;; rvec_from_quat q)
      = Value (scale3 r (- ((4 * PI - norm3 r) / norm3 r))))
  /\ (Rabs (sin (norm3 r / 2)) < 1 / 1000 ->
      (q <- quat_from_rvec r ;; rvec_from_quat q)
      = Value (V3 (2 * acos (cos (norm3 r / 2))) 0 0)).
Proof.
  pose proof PI_RGT_0 as Hpi.
  split; [apply round_trip_in_range |].
  split; [apply round_trip_same_quat |].
  split; [| apply round_trip_in_band].
  intros Hn Hs. rewrite round_trip_unfold by lra. cbv zeta.
  replace (Rabs (sin (norm3 r / 2))) with (- sin (norm3 r / 2))
    by (rewrite <- Rabs_Ropp; symmetry; apply Rabs_pos_eq; lra).
  destruct (Rlt_dec (- sin (norm3 r / 2)) (1 / 1000)) as [L | _]; [lra |].
  rewrite acos_cos_wrapped by lra.
  destruct r as [a b c]. unfold scale3. cbn [ux uy uz].
  set (n := norm3 (V3 a b c)) in *.
  do 2 f_equal; field; lra.
Qed.

Lemma quat_rvec_round_trip_witness :
  (q <- quat_from_rvec (V3 PI 0 0) ;; rvec_from_quat q) = Value (V3 PI 0 0).
Proof.
  pose proof PI_RGT_0 as Hpi.
  assert (Hn : norm3 (V3 PI 0 0) = PI).
  { rewrite norm3_x_axis. apply Rabs_pos_eq. lra. }
  apply (proj1 (quat_rvec_round_trip (V3 PI 0 0))).
  - rewrite Hn. lra.
  - rewrite Hn, sin_PI2. lra.
Defined.
